(** * sha1files: a shallow embedding of main.go and its properties

    The program walks directory trees, hashes every regular file with SHA-1
    and stores (extless, ext, sha1, path) rows in a SQLite table, in batches
    of 100000.  This file embeds the functions of main.go together with the
    parts of the Go standard library they call (strings, path/filepath,
    crypto/sha1, encoding/hex, database/sql), and proves what the program
    does. *)

From Stdlib Require Import ZArith List String Ascii Bool Lia DecimalString.
Import ListNotations.
Open Scope string_scope.
Open Scope list_scope.
Open Scope Z_scope.

(** ** Bytes and strings

    A Go [string] is a sequence of bytes, as is a Rocq [string] (its
    characters are 8-bit).  A Go [byte] is modelled as a [Z] in [0, 256). *)

Definition byte := Z.

Module Utf8.

Definition byteAt (s : string) (i : nat) : Z :=
  match String.get i s with
  | Some c => Z.of_N (N_of_ascii c)
  | None => 0
  end.

Definition locb : Z := 128.   (* 0x80 *)
Definition hicb : Z := 191.   (* 0xBF *)

(** The [first] table with [acceptRanges]: for a leading byte, the size of
    the sequence it announces and the range its second byte must lie in;
    [None] for ASCII and for bytes that cannot lead ([as] and [xx]). *)
Definition first (b : Z) : option (nat * (Z * Z)) :=
  if b <? 194 then None                              (* 0x00-0xC1 *)
  else if b <? 224 then Some (2%nat, (locb, hicb))   (* 0xC2-0xDF *)
  else if b =? 224 then Some (3%nat, (160, hicb))    (* 0xE0 *)
  else if b <? 237 then Some (3%nat, (locb, hicb))   (* 0xE1-0xEC *)
  else if b =? 237 then Some (3%nat, (locb, 159))    (* 0xED *)
  else if b <? 240 then Some (3%nat, (locb, hicb))   (* 0xEE-0xEF *)
  else if b =? 240 then Some (4%nat, (144, hicb))    (* 0xF0 *)
  else if b <? 244 then Some (4%nat, (locb, hicb))   (* 0xF1-0xF3 *)
  else if b =? 244 then Some (4%nat, (locb, 143))    (* 0xF4 *)
  else None.                                         (* 0xF5-0xFF *)

(** The width returned by [utf8.DecodeRuneInString(s)]. *)
Definition runeWidth (s : string) : nat :=
  match s with
  | EmptyString => 0
  | String _ _ =>
      match first (byteAt s 0) with
      | None => 1
      | Some (sz, (lo, hi)) =>
          if (String.length s <? sz)%nat then 1
          else if (byteAt s 1 <? lo) || (hi <? byteAt s 1) then 1
          else if (sz <=? 2)%nat then 2
          else if (byteAt s 2 <? locb) || (hicb <? byteAt s 2) then 1
          else if (sz <=? 3)%nat then 3
          else if (byteAt s 3 <? locb) || (hicb <? byteAt s 3) then 1
          else 4
      end
  end.

(** [utf8.RuneCountInString(s)]; [left] is the number of bytes of the
    current rune still to pass. *)
Fixpoint runeCountFrom (left : nat) (s : string) : nat :=
  match s with
  | EmptyString => 0
  | String _ s' =>
      match left with
      | S (S k) => runeCountFrom (S k) s'
      | S O => runeCountFrom O s'
      | O => S (runeCountFrom (runeWidth s - 1) s')
      end
  end.

Definition RuneCountInString (s : string) : nat := runeCountFrom 0 s.

End Utf8.

Module Strings.

(** [strings.HasPrefix(s, prefix)]. *)
Fixpoint HasPrefix (s prefix : string) : bool :=
  match prefix, s with
  | EmptyString, _ => true
  | String _ _, EmptyString => false
  | String c p', String d s' => Ascii.eqb c d && HasPrefix s' p'
  end.

(** Non-overlapping occurrences of a non-empty [sep] in [s]; [skip] is the
    number of bytes of the occurrence just found still to pass. *)
Fixpoint countFrom (skip : nat) (s sep : string) : nat :=
  match s with
  | EmptyString => 0
  | String _ s' =>
      match skip with
      | S k => countFrom k s' sep
      | O =>
          if HasPrefix s sep then S (countFrom (String.length sep - 1) s' sep)
          else countFrom O s' sep
      end
  end.

(** [strings.Count(s, sep)]. *)
Definition Count (s sep : string) : nat :=
  match sep with
  | EmptyString => S (Utf8.RuneCountInString s)
  | String _ _ => countFrom O s sep
  end.

(** The copying loop of [strings.Replace] for a non-empty [old], with [n]
    replacements still to make: the leftmost occurrence of [old] is found,
    the text before it is kept, [new] is written, and the search resumes
    after the occurrence; once [n] is used up the rest is copied. *)
Fixpoint replaceFrom (n skip : nat) (s old new : string) : string :=
  match s with
  | EmptyString => EmptyString
  | String c s' =>
      match skip with
      | S k => replaceFrom n k s' old new
      | O =>
          match n with
          | O => s
          | S n' =>
              if HasPrefix s old
              then (new ++ replaceFrom n' (String.length old - 1) s' old new)%string
              else String c (replaceFrom n O s' old new)
          end
      end
  end.

(** The same loop for an empty [old]: [new] is written after each rune,
    [n] times; [copy] is the number of bytes of the current rune still to
    copy. *)
Fixpoint insertFrom (n copy : nat) (s new : string) : string :=
  match s with
  | EmptyString => EmptyString
  | String c s' =>
      match n with
      | O => s
      | S n' =>
          let k := match copy with O => Utf8.runeWidth s | S _ => copy end in
          if (k <=? 1)%nat then String c (new ++ insertFrom n' O s' new)%string
          else String c (insertFrom n (k - 1) s' new)
      end
  end.

(** [strings.Replace(s, old, new, n)]. *)
Definition Replace (s old new : string) (n : Z) : string :=
  if String.eqb old new || (n =? 0) then s
  else
    let m := Count s old in
    if (m =? 0)%nat then s
    else
      let n := if (n <? 0) || (Z.of_nat m <? n) then m else Z.to_nat n in
      match old with
      | EmptyString => (new ++ insertFrom (n - 1) O s new)%string
      | String _ _ => replaceFrom n O s old new
      end.

End Strings.

Module Filepath.

(** [os.IsPathSeparator] on Unix. *)
Definition IsPathSeparator (c : ascii) : bool := Ascii.eqb c "/"%char.

(** The loop of [filepath.Ext]: [before] holds [path[0..i]] backwards (its
    head is [path[i]]) and [after] is [path[i+1:]]. *)
Fixpoint extLoop (before : list ascii) (after : string) : string :=
  match before with
  | [] => EmptyString
  | c :: before' =>
      if IsPathSeparator c then EmptyString
      else if Ascii.eqb c "."%char then String c after
      else extLoop before' (String c after)
  end.

(** [filepath.Ext(path)]: the suffix beginning at the final dot in the final
    element of [path]; empty if there is no dot. *)
Definition Ext (path : string) : string :=
  extLoop (rev (list_ascii_of_string path)) EmptyString.

(** [filepath.Join(dir, name)] for a cleaned directory path and a single
    name, which is how [Walk] uses it. *)
Definition Join (dir name : string) : string :=
  if String.eqb dir "/" then (dir ++ name)%string else (dir ++ "/" ++ name)%string.

End Filepath.

(** ** crypto/sha1 and encoding/hex *)

Module Sha1.

Definition Size : nat := 20.
Definition chunk : nat := 64.

Definition u32 (x : Z) : Z := x mod 2 ^ 32.
Definition u64 (x : Z) : Z := x mod 2 ^ 64.

Definition add32 (x y : Z) : Z := u32 (x + y).
Definition not32 (x : Z) : Z := Z.lxor x 4294967295.

(** [bits.RotateLeft32]. *)
Definition RotateLeft32 (x k : Z) : Z :=
  u32 (Z.lor (Z.shiftl x k) (Z.shiftr x (32 - k))).

Definition init0 : Z := 1732584193.   (* 0x67452301 *)
Definition init1 : Z := 4023233417.   (* 0xEFCDAB89 *)
Definition init2 : Z := 2562383102.   (* 0x98BADCFE *)
Definition init3 : Z := 271733878.    (* 0x10325476 *)
Definition init4 : Z := 3285377520.   (* 0xC3D2E1F0 *)

Definition _K0 : Z := 1518500249.     (* 0x5A827999 *)
Definition _K1 : Z := 1859775393.     (* 0x6ED9EBA1 *)
Definition _K2 : Z := 2400959708.     (* 0x8F1BBCDC *)
Definition _K3 : Z := 3395469782.     (* 0xCA62C1D6 *)

(** The five chaining words [h[0..4]]. *)
Record words := W5 { h0 : Z; h1 : Z; h2 : Z; h3 : Z; h4 : Z }.

(** The digest object: chaining words, the buffered tail [x[:nx]] and the
    number of bytes written. *)
Record digest := Digest { h : words; x : list byte; len : Z }.

(** [sha1.New()] (that is, [Reset]). *)
Definition New : digest :=
  Digest (W5 init0 init1 init2 init3 init4) [] 0.

Definition at16 (w : list Z) (i : Z) : Z :=
  nth (Z.to_nat (Z.land i 15)) w 0.

Fixpoint set16 (w : list Z) (i : nat) (v : Z) : list Z :=
  match w, i with
  | [], _ => []
  | _ :: w', O => v :: w'
  | y :: w', S i' => y :: set16 w' i' v
  end.

(** The big-endian words [w[0..15]] of a 64-byte chunk. *)
Fixpoint loadWords (n : nat) (p : list byte) : list Z :=
  match n with
  | O => []
  | S n' =>
      match p with
      | b0 :: b1 :: b2 :: b3 :: p' =>
          Z.lor (Z.lor (Z.lor (Z.shiftl b0 24) (Z.shiftl b1 16)) (Z.shiftl b2 8)) b3
            :: loadWords n' p'
      | _ => 0 :: loadWords n' []
      end
  end.

Record round := Round { rw : list Z; ra : Z; rb : Z; rc : Z; rd : Z; re : Z }.

(** One iteration of the four loops of [blockGeneric]; they differ in the
    function [f], the constant, and in whether [w] is extended first
    (from round 16 on). *)
Definition step (r : round) (i : Z) : round :=
  let w :=
    if i <? 16 then rw r
    else
      let tmp := Z.lxor (Z.lxor (Z.lxor (at16 (rw r) (i - 3)) (at16 (rw r) (i - 8)))
                                (at16 (rw r) (i - 14))) (at16 (rw r) i) in
      set16 (rw r) (Z.to_nat (Z.land i 15)) (RotateLeft32 tmp 1) in
  let '(f, k) :=
    if i <? 20 then (Z.lor (Z.land (rb r) (rc r)) (Z.land (not32 (rb r)) (rd r)), _K0)
    else if i <? 40 then (Z.lxor (Z.lxor (rb r) (rc r)) (rd r), _K1)
    else if i <? 60 then
      (Z.lor (Z.land (Z.lor (rb r) (rc r)) (rd r)) (Z.land (rb r) (rc r)), _K2)
    else (Z.lxor (Z.lxor (rb r) (rc r)) (rd r), _K3) in
  let t := add32 (add32 (add32 (add32 (RotateLeft32 (ra r) 5) f) (re r)) (at16 w i)) k in
  Round w t (ra r) (RotateLeft32 (rb r) 30) (rc r) (rd r).

Definition rounds : list Z := map Z.of_nat (seq 0 80).

(** The body of the outer loop of [blockGeneric] for one chunk. *)
Definition block1 (hs : words) (p : list byte) : words :=
  let r0 := Round (loadWords 16 p) (h0 hs) (h1 hs) (h2 hs) (h3 hs) (h4 hs) in
  let r := fold_left step rounds r0 in
  W5 (add32 (h0 hs) (ra r)) (add32 (h1 hs) (rb r)) (add32 (h2 hs) (rc r))
     (add32 (h3 hs) (rd r)) (add32 (h4 hs) (re r)).

(** [block(d, p)] for [p] made of [n] whole chunks. *)
Fixpoint block (n : nat) (hs : words) (p : list byte) : words :=
  match n with
  | O => hs
  | S n' => block n' (block1 hs (firstn chunk p)) (skipn chunk p)
  end.

(** [d.Write(p)]: the buffered tail and [p] are consumed chunk by chunk and
    what is left (fewer than 64 bytes) is buffered. *)
Definition Write (d : digest) (p : list byte) : digest :=
  let data := x d ++ p in
  let n := Nat.div (List.length data) chunk in
  Digest (block n (h d) data) (skipn (n * chunk) data)
         (u64 (len d + Z.of_nat (List.length p))).

(** [byteorder.BEPutUint32] and [BEPutUint64]. *)
Definition BEPutUint32 (v : Z) : list byte :=
  [Z.land (Z.shiftr v 24) 255; Z.land (Z.shiftr v 16) 255;
   Z.land (Z.shiftr v 8) 255; Z.land v 255].

Definition BEPutUint64 (v : Z) : list byte :=
  BEPutUint32 (Z.shiftr v 32) ++ BEPutUint32 v.

(** [d.checkSum()]: pad with a 1 bit and zeros up to 56 bytes mod 64, append
    the length in bits, and lay the chaining words out big-endian. *)
Definition checkSum (d : digest) : list byte :=
  let l := len d in
  let t := if l mod 64 <? 56 then 56 - l mod 64 else 64 + 56 - l mod 64 in
  let padlen := 128 :: repeat 0 (Z.to_nat t - 1) ++ BEPutUint64 (u64 (Z.shiftl l 3)) in
  let d' := Write d padlen in
  BEPutUint32 (h0 (h d')) ++ BEPutUint32 (h1 (h d')) ++ BEPutUint32 (h2 (h d'))
    ++ BEPutUint32 (h3 (h d')) ++ BEPutUint32 (h4 (h d')).

(** [d.Sum(in)]. *)
Definition Sum (d : digest) (input : list byte) : list byte :=
  input ++ checkSum d.

End Sha1.

Module Hex.

Definition hextable : string := "0123456789abcdef".

Definition digit (k : Z) : ascii :=
  match String.get (Z.to_nat k) hextable with
  | Some c => c
  | None => "0"%char
  end.

(** [hex.EncodeToString(src)]. *)
Fixpoint EncodeToString (src : list byte) : string :=
  match src with
  | [] => EmptyString
  | v :: src' =>
      String (digit (Z.shiftr v 4)) (String (digit (Z.land v 15)) (EncodeToString src'))
  end.

End Hex.

(** ** Errors, outcomes and the state monad

    A Go [error] value is [option error] ([None] is [nil]).  A call either
    returns, or ends the process: [log.Fatal] exits with status 1, a nil
    dereference panics. *)

Inductive error :=
| SkipDir                      (* filepath.SkipDir *)
| SkipAll                      (* filepath.SkipAll *)
| ErrPath (op path : string)   (* *os.PathError: Op and Path *)
| ErrDB (what : string).       (* an error of the database driver *)

Definition isSkipDir (e : error) : bool :=
  match e with SkipDir => true | _ => false end.

Definition isSkipAll (e : error) : bool :=
  match e with SkipAll => true | _ => false end.

Inductive result (A : Type) :=
| Ok (a : A)
| Err (e : error).
Arguments Ok {A} a.
Arguments Err {A} e.

Inductive outcome (A : Type) :=
| Ret (a : A)
| Fatal (e : error)
| Panic.
Arguments Ret {A} a.
Arguments Fatal {A} e.
Arguments Panic {A}.

Definition M (S A : Type) : Type := S -> S * outcome A.

Definition ret {S A : Type} (a : A) : M S A := fun s => (s, Ret a).

Definition bind {S A B : Type} (m : M S A) (k : A -> M S B) : M S B :=
  fun s =>
    match m s with
    | (s', Ret a) => k a s'
    | (s', Fatal e) => (s', Fatal e)
    | (s', Panic) => (s', Panic)
    end.

Notation "x <- m ;; k" := (bind m (fun x => k))
  (at level 61, m at next level, right associativity).

(** ** The file system *)

(** What [os.FileInfo] tells the program: [Name()] and [IsDir()]. *)
Record FileInfo := { Name : string; IsDir : bool }.

(** A directory tree as [Walk] meets it: the children of a directory in the
    order [readDirNames] returns them (sorted by name).  Listing a directory
    and [lstat] on a listed name are taken to succeed. *)
#[warnings="-register-all"]
Inductive node :=
| File (name : string)
| Dir (name : string) (children : list node).

Definition nodeName (n : node) : string :=
  match n with File name => name | Dir name _ => name end.

Definition nodeIsDir (n : node) : bool :=
  match n with File _ => false | Dir _ _ => true end.

Definition infoOf (n : node) : FileInfo :=
  {| Name := nodeName n; IsDir := nodeIsDir n |}.

(** The environment of a run: [filepath.Abs] (which fails when the working
    directory cannot be determined), the tree [os.Lstat] finds at a path, and
    [ioutil.ReadFile]. *)
Record world := {
  Abs : string -> result string;
  Lstat : string -> result node;
  ReadFile : string -> result (list byte)
}.

(** ** The database (database/sql over SQLite) *)

Module Sql.

(** The value a statement is prepared on: the database handle ([db.Prepare])
    or a transaction ([tx.Prepare]). *)
Inductive handle := OnDB | OnTx.

(** The calls the program makes, with whether each succeeded. *)
Inductive op :=
| Open (ok : bool)                                       (* sql.Open("sqlite3", "./files.db") *)
| Exec (query : string) (ok : bool)                      (* db.Exec(query) *)
| Begin (ok : bool)                                      (* db.Begin() *)
| Prepare (h : handle) (query : string) (ok : bool)      (* db.Prepare(query), tx.Prepare(query) *)
| StmtExec (h : handle) (args : list string) (ok : bool) (* stmt.Exec(args...) *)
| Commit (ok : bool)                                     (* tx.Commit() *)
| StmtClose                                              (* stmt.Close() *)
| Close.                                                 (* db.Close() *)

(** The store: the rows of [files], the rows written within the open
    transaction and not yet committed, the calls received so far, and which
    calls fail ([fault k] is whether the call number [k] fails). *)
Record DB := {
  table : list (list string);
  pending : list (list string);
  ops : list op;
  fault : nat -> bool
}.

Definition call (mk : bool -> op) (d : DB) : DB * bool :=
  let ok := negb (fault d (List.length (ops d))) in
  ({| table := table d; pending := pending d; ops := ops d ++ [mk ok];
      fault := fault d |}, ok).

Definition note (o : op) (d : DB) : DB :=
  {| table := table d; pending := pending d; ops := ops d ++ [o]; fault := fault d |}.

(** [db.Begin()]: a transaction is opened, with nothing written in it. *)
Definition begin (d : DB) : DB * bool :=
  let (d', ok) := call Begin d in
  ({| table := table d'; pending := if ok then [] else pending d';
      ops := ops d'; fault := fault d' |}, ok).

(** [stmt.Exec] of the insert statement.  A statement prepared on a
    transaction runs within it: its row is stored when the transaction is
    committed.  A statement prepared on the handle [db] runs on a connection
    of the pool, outside any transaction: its row is stored when [Exec]
    succeeds. *)
Definition stmtExec (h : handle) (args : list string) (d : DB) : DB * bool :=
  let (d', ok) := call (StmtExec h args) d in
  ({| table := match h with
               | OnDB => if ok then table d' ++ [args] else table d'
               | OnTx => table d'
               end;
      pending := match h with
                 | OnDB => pending d'
                 | OnTx => if ok then pending d' ++ [args] else pending d'
                 end;
      ops := ops d'; fault := fault d' |}, ok).

(** [tx.Commit()]: what was written within the transaction is stored, or
    lost if the commit fails. *)
Definition commit (d : DB) : DB * bool :=
  let (d', ok) := call Commit d in
  ({| table := if ok then table d' ++ pending d' else table d'; pending := [];
      ops := ops d'; fault := fault d' |}, ok).

End Sql.

(** ** main.go *)

(** Information about the file that will be stored in the database. *)
Record record := {
  extless : string;
  ext : string;
  sha1 : string;
  path : string
}.

Inductive logline :=
| LogUsage                                 (* USAGE: sha1files DIR [DIR]... *)
| LogDescending (name : string)            (* Descending into dir: %s *)
| LogCommitting (n : Z)                    (* Commmitting batch of %d records *)
| LogCreate (e : error) (query : string)   (* %q: %s *)
| LogErrorDir (dir : string)               (* Error processing dir: %s *)
| LogFatal (e : error).                    (* log.Fatal(err) *)

(** The variables of [main] that the closure [visit] shares with it, and
    what the process has written to its log. *)
Record state := {
  records : list record;
  db : Sql.DB;
  log : list logline
}.

Definition setRecords (rs : list record) (st : state) : state :=
  {| records := rs; db := db st; log := log st |}.

Definition setDb (d : Sql.DB) (st : state) : state :=
  {| records := records st; db := d; log := log st |}.

Definition logPrintf (l : logline) (st : state) : state :=
  {| records := records st; db := db st; log := log st ++ [l] |}.

(** [log.Fatal(err)]. *)
Definition logFatal {A : Type} (e : error) : M state A :=
  fun st => (logPrintf (LogFatal e) st, Fatal e).

Section Program.

Variable w : world.

(** Compute the SHA1 hash of a file specified by its path. *)
Definition calcSha1 (path : string) : string * option error :=
  match ReadFile w path with
  | Err err => (EmptyString, Some err)
  | Ok bytes =>
      let hasher := Sha1.Write Sha1.New bytes in
      let hash := Hex.EncodeToString (Sha1.Sum hasher []) in
      (hash, None)
  end.

(** Visit a file in the directory tree.  The result carries the lines the
    call logs; a nil [info] makes [info.Name()] panic. *)
Definition doVisit (path : string) (info : option FileInfo) (err : option error)
  : list logline * outcome (option record * option error) :=
  match info with
  | None => ([], Panic)
  | Some info =>
      if Strings.HasPrefix (Name info) "." then
        ([], Ret (None, Some SkipDir))
      else if IsDir info then
        ([LogDescending (Name info)], Ret (None, None))
      else
        let ext := Filepath.Ext (Name info) in
        let extless := Strings.Replace (Name info) ext "" (-1) in
        match calcSha1 path with
        | (_, Some err) => ([], Ret (None, Some err))
        | (sha1, None) =>
            ([], Ret (Some {| extless := extless; ext := ext;
                              sha1 := sha1; path := path |}, None))
        end
  end.

End Program.

Definition insertQuery : string :=
  "INSERT INTO files (extless, ext, sha1, path) VALUES (?, ?, ?, ?)".

Definition createQuery : string :=
  "CREATE TABLE IF NOT EXISTS files (extless TEXT, ext CHAR(3), sha1 CHAR(40), path TEXT)".

Definition insertArgs (r : record) : list string :=
  [extless r; ext r; sha1 r; path r].

(** The loop of [commitRecords]: [stmt] is the statement prepared on [db];
    the result of each [stmt.Exec] is dropped. *)
Fixpoint execAll (rs : list record) (d : Sql.DB) : Sql.DB :=
  match rs with
  | [] => d
  | r :: rs' => execAll rs' (fst (Sql.stmtExec Sql.OnDB (insertArgs r) d))
  end.

(** Insert a batch of records into the files table. *)
Definition commitRecords (rs : list record) (st : state) : state * option error :=
  let st := logPrintf (LogCommitting (Z.of_nat (List.length rs))) st in
  let (d, ok) := Sql.begin (db st) in
  if negb ok then (setDb d st, Some (ErrDB "begin"))
  else
    let (d, ok) := Sql.call (Sql.Prepare Sql.OnDB insertQuery) d in
    if negb ok then (setDb d st, Some (ErrDB "prepare"))
    else
      let d := execAll rs d in
      let (d, _) := Sql.commit d in
      (setDb (Sql.note Sql.StmtClose d) st, None).

(** *** path/filepath.Walk *)

Definition WalkFunc (S : Type) : Type :=
  string -> option FileInfo -> option error -> M S (option error).

(** [walk(path, info, walkFn)] of the standard library: the function is
    called on the entry; a directory for which it returned nil is then
    walked child by child, in the order of its listing.  An error from a
    child ends the loop and is returned, unless the child is a directory and
    the error is [SkipDir]: so [SkipDir] returned for a directory skips that
    directory, and [SkipDir] returned for a file skips what is left of the
    directory that holds it. *)
Fixpoint walk {S : Type} (walkFn : WalkFunc S) (path : string) (n : node)
  : M S (option error) :=
  match n with
  | File _ => walkFn path (Some (infoOf n)) None
  | Dir _ children =>
      err1 <- walkFn path (Some (infoOf n)) None ;;
      match err1 with
      | Some e => ret (Some e)
      | None =>
          (fix loop (cs : list node) : M S (option error) :=
             match cs with
             | [] => ret None
             | c :: cs' =>
                 err <- walk walkFn (Filepath.Join path (nodeName c)) c ;;
                 match err with
                 | Some e =>
                     if negb (nodeIsDir c) || negb (isSkipDir e)
                     then ret (Some e)
                     else loop cs'
                 | None => loop cs'
                 end
             end) children
      end
  end.

(** [filepath.Walk(root, fn)]. *)
Definition Walk {S : Type} (w : world) (fn : WalkFunc S) (root : string)
  : M S (option error) :=
  err <- match Lstat w root with
         | Err err => fn root None (Some err)
         | Ok n => walk fn root n
         end ;;
  match err with
  | Some e => if isSkipDir e || isSkipAll e then ret None else ret (Some e)
  | None => ret None
  end.

(** *** main *)

Definition logAll (ls : list logline) (st : state) : state :=
  {| records := records st; db := db st; log := log st ++ ls |}.

(** The closure [visit] of [main]. *)
Definition visit (w : world) : WalkFunc state :=
  fun path info err st =>
    let (lines, o) := doVisit w path info err in
    let st := logAll lines st in
    match o with
    | Panic => (st, Panic)
    | Fatal e => (st, Fatal e)
    | Ret (_, Some suberr) => (st, Ret (Some suberr))
    | Ret (result, None) =>
        let st :=
          match result with
          | Some r => setRecords (records st ++ [r]) st
          | None => st
          end in
        (* Commit in batches of 100000 *)
        if Z.of_nat (List.length (records st)) =? 100000 then
          let (st, err) := commitRecords (records st) st in
          match err with
          | Some e => logFatal e st
          | None => (setRecords [] st, Ret None)
          end
        else (st, Ret None)
    end.

(** The loop of [main] over [flag.Args()].  The value [filepath.Walk]
    returns is dropped. *)
Fixpoint walkRoots (w : world) (dirs : list string) : M state unit :=
  match dirs with
  | [] => ret tt
  | dir :: dirs' =>
      fun st =>
        let (abs, st) :=
          match Abs w dir with
          | Ok abs => (abs, st)
          | Err _ => (EmptyString, logPrintf (LogErrorDir dir) st)
          end in
        (_ <- Walk w (visit w) abs ;; walkRoots w dirs') st
  end.

(** Commit any remaining records. *)
Definition commitRemaining : M state unit :=
  fun st =>
    if 0 <? Z.of_nat (List.length (records st)) then
      let (st, err) := commitRecords (records st) st in
      match err with
      | Some e => logFatal e st
      | None => (st, Ret tt)
      end
    else (st, Ret tt).

(** [main], started on the arguments [args] and the store [d].  The deferred
    [db.Close()] runs when [main] returns or panics, not when [log.Fatal]
    exits. *)
Definition main (w : world) (args : list string) (d : Sql.DB) : state * outcome unit :=
  let st := {| records := []; db := d; log := [] |} in
  match args with
  | [] => (logPrintf LogUsage st, Ret tt)
  | _ :: _ =>
      let (d, ok) := Sql.call Sql.Open d in
      let st := setDb d st in
      if negb ok then logFatal (ErrDB "open") st
      else
        let (d, ok) := Sql.call (Sql.Exec createQuery) d in
        let st := setDb d st in
        if negb ok then
          (setDb (Sql.note Sql.Close d) (logPrintf (LogCreate (ErrDB "exec") createQuery) st),
           Ret tt)
        else
          match (_ <- walkRoots w args ;; commitRemaining) st with
          | (st, Fatal e) => (st, Fatal e)
          | (st, o) => (setDb (Sql.note Sql.Close (db st)) st, o)
          end
  end.

(** ** Definitions used to state the properties *)

Definition bytes_of_string (s : string) : list byte :=
  map (fun c => Z.of_N (N_of_ascii c)) (list_ascii_of_string s).

(** The digest [calcSha1] computes from the content of a file. *)
Definition sha1hex (content : list byte) : string :=
  Hex.EncodeToString (Sha1.Sum (Sha1.Write Sha1.New content) []).

Definition isLowerHex (c : ascii) : bool :=
  let n := N_of_ascii c in
  ((48 <=? n) && (n <=? 57) || (97 <=? n) && (n <=? 102))%N.

Fixpoint allChars (p : ascii -> bool) (s : string) : bool :=
  match s with
  | EmptyString => true
  | String c s' => p c && allChars p s'
  end.

(** The loop of [walk] over the children of a directory. *)
Fixpoint walkChildren {S : Type} (walkFn : WalkFunc S) (path : string) (cs : list node)
  : M S (option error) :=
  match cs with
  | [] => ret None
  | c :: cs' =>
      err <- walk walkFn (Filepath.Join path (nodeName c)) c ;;
      match err with
      | Some e =>
          if negb (nodeIsDir c) || negb (isSkipDir e)
          then ret (Some e)
          else walkChildren walkFn path cs'
      | None => walkChildren walkFn path cs'
      end
  end.

(** The records a traversal produces: [visit] without the batching, keeping
    every record [doVisit] returns. *)
Definition collect (w : world) : WalkFunc (list record) :=
  fun path info err acc =>
    match snd (doVisit w path info err) with
    | Panic => (acc, Panic)
    | Fatal e => (acc, Fatal e)
    | Ret (_, Some suberr) => (acc, Ret (Some suberr))
    | Ret (Some r, None) => (acc ++ [r], Ret None)
    | Ret (None, None) => (acc, Ret None)
    end.

Fixpoint collectRoots (w : world) (dirs : list string) : M (list record) unit :=
  match dirs with
  | [] => ret tt
  | dir :: dirs' =>
      let abs := match Abs w dir with Ok abs => abs | Err _ => EmptyString end in
      _ <- Walk w (collect w) abs ;; collectRoots w dirs'
  end.

(** The records walking one tree produces. *)
Definition produced (w : world) (root : string) (n : node) : list record :=
  fst (walk (collect w) root n []).

(** The calls a flush of the batch [rs] makes when none of them fails. *)
Definition opsFor (rs : list record) : list Sql.op :=
  [Sql.Begin true; Sql.Prepare Sql.OnDB insertQuery true]
    ++ map (fun r => Sql.StmtExec Sql.OnDB (insertArgs r) true) rs
    ++ [Sql.Commit true; Sql.StmtClose].

Definition isCommit (o : Sql.op) : bool :=
  match o with Sql.Commit _ => true | _ => false end.

(** A call that runs a statement within a transaction. *)
Definition onTx (o : Sql.op) : bool :=
  match o with Sql.StmtExec Sql.OnTx _ _ => true | _ => false end.

(** The number of commit operations among the calls [l]. *)
Definition commits (l : list Sql.op) : nat := List.length (filter isCommit l).

Definition noFault (d : Sql.DB) : Prop := forall k, Sql.fault d k = false.

Definition hidden (name : string) : bool := Strings.HasPrefix name ".".

(** The number of non-hidden regular files reachable from a node, a hidden
    directory hiding everything beneath it. *)
Fixpoint visibleFiles (n : node) : nat :=
  match n with
  | File name => if hidden name then 0 else 1
  | Dir name cs =>
      if hidden name then 0
      else (fix sum (cs : list node) : nat :=
              match cs with
              | [] => 0
              | c :: cs' => visibleFiles c + sum cs'
              end) cs
  end%nat.

(** No hidden regular file is met by the traversal of the node. *)
Fixpoint noHiddenFile (n : node) : bool :=
  match n with
  | File name => negb (hidden name)
  | Dir name cs =>
      hidden name ||
      (fix all (cs : list node) : bool :=
         match cs with
         | [] => true
         | c :: cs' => noHiddenFile c && all cs'
         end) cs
  end.

(** The shape of a walk that meets no hidden regular file and no unreadable
    file: it returns nil, or [SkipDir] for a hidden directory, and adds one
    record for each visible file. *)
Definition countsFiles (w : world) (n : node) : Prop :=
  noHiddenFile n = true ->
  forall path acc,
    exists recs oe,
      walk (collect w) path n acc = (acc ++ recs, Ret oe) /\
      List.length recs = visibleFiles n /\
      (oe = None \/ oe = Some SkipDir /\ nodeIsDir n = true).

(** [endsAt fn e path n s s']: walking [n] from the state [s], the function
    [fn] returns the error [e] at some entry, leaving the state [s']; the
    entries walked before that one returned nil. *)
Inductive endsAt {S : Type} (fn : WalkFunc S) (e : error)
  : string -> node -> S -> S -> Prop :=
| endsHere path n s s' :
    fn path (Some (infoOf n)) None s = (s', Ret (Some e)) ->
    endsAt fn e path n s s'
| endsBelow path name before c after s s0 s1 s' :
    fn path (Some (infoOf (Dir name (before ++ c :: after)))) None s = (s0, Ret None) ->
    walkChildren fn path before s0 = (s1, Ret None) ->
    endsAt fn e (Filepath.Join path (nodeName c)) c s1 s' ->
    endsAt fn e path (Dir name (before ++ c :: after)) s s'.

(** Outcomes that are equal and not fatal. *)
Definition agree {A : Type} (o1 o2 : outcome A) : Prop :=
  match o1, o2 with
  | Ret a, Ret b => a = b
  | Panic, Panic => True
  | _, _ => False
  end.

(** Two computations that keep a relation between their states and end
    alike. *)
Definition simM {S1 S2 A : Type} (R : S1 -> S2 -> Prop) (m1 : M S1 A) (m2 : M S2 A)
  : Prop :=
  forall s1 s2, R s1 s2 ->
    R (fst (m1 s1)) (fst (m2 s2)) /\ agree (snd (m1 s1)) (snd (m2 s2)).

(** The batching invariant of [visit]: the records produced so far are the
    full batches already flushed, each of 100000 records, followed by the
    batch in memory, which is shorter; the store has received the calls of
    those flushes and holds their rows. *)
Definition batchInv (t0 : list (list string)) (o0 : list Sql.op)
  (acc : list record) (st : state) : Prop :=
  noFault (db st) /\
  exists batches,
    Forall (fun b => Z.of_nat (List.length b) = 100000) batches /\
    acc = List.concat batches ++ records st /\
    Z.of_nat (List.length (records st)) < 100000 /\
    Sql.ops (db st) = o0 ++ List.concat (map opsFor batches) /\
    Sql.table (db st) = t0 ++ map insertArgs (List.concat batches).

(** A store that never fails, empty at first. *)
Definition emptyDB : Sql.DB :=
  {| Sql.table := []; Sql.pending := []; Sql.ops := []; Sql.fault := fun _ => false |}.

(** ** Concrete runs *)

Definition lookupRoot (roots : list (string * node)) (p : string) : result node :=
  match find (fun x => String.eqb (fst x) p) roots with
  | Some (_, n) => Ok n
  | None => Err (ErrPath "lstat" p)
  end.

(** A world with the given trees at the given absolute paths, in which the
    listed files cannot be read and every other file has the content
    [content].  The roots are given as cleaned absolute paths, which
    [filepath.Abs] returns unchanged. *)
Definition simpleWorld (roots : list (string * node)) (unreadable : list string)
  (content : list byte) : world :=
  {| Abs := fun d => Ok d;
     Lstat := lookupRoot roots;
     ReadFile := fun p =>
       if existsb (String.eqb p) unreadable then Err (ErrPath "open" p)
       else Ok content |}.

Definition helloBytes : list byte := bytes_of_string "hello".

Definition fileInfo (name : string) : FileInfo := {| Name := name; IsDir := false |}.

(** A directory holding a hidden file and a text file. *)
Definition dataWithHidden : node := Dir "data" [File ".hidden"; File "a.txt"].
Definition dataWithout : node := Dir "data" [File "a.txt"].

Definition hiddenWorld : world := simpleWorld [("/data", dataWithHidden)] [] helloBytes.
Definition plainWorld : world := simpleWorld [("/data", dataWithout)] [] helloBytes.

Definition recordOf (name dir : string) (content : list byte) : record :=
  {| extless := Strings.Replace name (Filepath.Ext name) "" (-1);
     ext := Filepath.Ext name;
     sha1 := sha1hex content;
     path := Filepath.Join dir name |}.

(** A directory of [n] regular files [f000000], [f000001], ..., all empty;
    the numbers are written with six digits, so that the names are listed in
    this order. *)
Fixpoint zeros (n : nat) : string :=
  match n with
  | O => EmptyString
  | S n' => String "0" (zeros n')
  end.

Definition numberedName (i : nat) : string :=
  let digits := NilZero.string_of_uint (N.to_uint (N.of_nat i)) in
  String "f" (zeros (6 - String.length digits) ++ digits).

Definition bigDir (n : nat) : node := Dir "data" (map (fun i => File (numberedName i)) (seq 0 n)).

Definition bigWorld (n : nat) : world := simpleWorld [("/data", bigDir n)] [] [].

Definition startState (d : Sql.DB) : state := {| records := []; db := d; log := [] |}.

(** Two roots: the first holds a file that cannot be read, followed by
    another file; the second holds one readable file. *)
Definition twoRootsWorld : world :=
  simpleWorld [("/a", Dir "a" [File "bad"; File "later"]); ("/b", Dir "b" [File "good"])]
              ["/a/bad"] helloBytes.

Definition helloDigest : string := "aaf4c61ddcc5e8a2dabede0f3b482cd9aea9434d".

(** A store on which only the call number [k] fails. *)
Definition failingAt (k : nat) : Sql.DB :=
  {| Sql.table := []; Sql.pending := []; Sql.ops := []; Sql.fault := Nat.eqb k |}.

(** A world in which the working directory cannot be determined, so that
    [filepath.Abs] fails on the relative path [x]; nothing exists at the
    empty path. *)
Definition noCwdWorld : world :=
  {| Abs := fun d => if String.eqb d "x" then Err (ErrPath "getwd" EmptyString) else Ok d;
     Lstat := lookupRoot [("/data", dataWithout)];
     ReadFile := fun _ => Ok helloBytes |}.

(** A tree with [a.txt], a hidden directory [.secret] holding [b.txt], and
    an empty directory [c]. *)
Definition scenarioWorld : world :=
  simpleWorld [("/top", Dir "top" [Dir ".secret" [File "b.txt"]; File "a.txt"; Dir "c" []])]
              [] helloBytes.

(** A root that exists followed by one that does not. *)
Definition missingRootWorld : world := simpleWorld [("/data", dataWithout)] [] helloBytes.

(** Two roots: in the first an unreadable file is listed between two
    readable ones; the second holds one readable file. *)
Definition cutWorld : world :=
  simpleWorld [("/a", Dir "a" [File "first"; File "bad"; File "later"]);
               ("/b", Dir "b" [File "good"])]
              ["/a/bad"] helloBytes.

(** ** Invariants of a run *)

(** How a computation ends when it does not return. *)
Inductive abort :=
| AbortFatal (e : error)
| AbortPanic.

(** [keeps P W m]: started in a state where [P] holds, [m] returns in a
    state where [P] holds, or ends the process in the way [a] in a state
    where [W a] holds. *)
Definition keeps {S A : Type} (P : S -> Prop) (W : abort -> S -> Prop) (m : M S A) : Prop :=
  forall s, P s ->
    match m s with
    | (s', Ret _) => P s'
    | (s', Fatal e) => W (AbortFatal e) s'
    | (s', Panic) => W AbortPanic s'
    end.

(** A row of [files] as the program writes it: four columns, the third a
    digest of 40 lowercase hexadecimal characters. *)
Definition wellFormedRow (row : list string) : bool :=
  match row with
  | [_; _; h; _] => (String.length h =? 40)%nat && allChars isLowerHex h
  | _ => false
  end.

(** A line of the log that announces a flush announces between 1 and 100000
    records. *)
Definition flushSize (l : logline) : Prop :=
  match l with
  | LogCommitting n => 0 < n <= 100000
  | _ => True
  end.

(** The errors of the store for which the program calls [log.Fatal]. *)
Definition storeError (e : error) : Prop :=
  e = ErrDB "open" \/ e = ErrDB "begin" \/ e = ErrDB "prepare".

(** What holds of the state throughout a run started on a store with the
    table [t0] and the faults [f0], whatever fails: the batch in memory holds
    at most 100000 records (fewer between two calls of [visit], when [full]
    is false), all with a well-formed row; the faults are those of the start;
    the table is [t0] followed by well-formed rows; every flush was of 1 to
    100000 records. *)
Definition runInv (t0 : list (list string)) (f0 : nat -> bool) (full : bool)
  (st : state) : Prop :=
  (if full then Z.of_nat (List.length (records st)) <= 100000
   else Z.of_nat (List.length (records st)) < 100000) /\
  forallb (fun r => wellFormedRow (insertArgs r)) (records st) = true /\
  Sql.fault (db st) = f0 /\
  (exists extra,
      Sql.table (db st) = t0 ++ extra /\ forallb wellFormedRow extra = true) /\
  Forall flushSize (log st).

(** The invariant where the process ends, with the ways [G] it may end. *)
Definition runEnd (t0 : list (list string)) (f0 : nat -> bool) (G : abort -> Prop)
  (a : abort) (st : state) : Prop :=
  runInv t0 f0 true st /\ G a.

(** The ways [visit] may end the process on an entry that exists. *)
Definition visitAbort (a : abort) : Prop :=
  match a with
  | AbortFatal e => e = ErrDB "begin" \/ e = ErrDB "prepare"
  | AbortPanic => False
  end.

(** The ways the loop over the roots may end the process: a panic needs a
    root that cannot be resolved or does not exist. *)
Definition rootsAbort (exist : bool) (a : abort) : Prop :=
  match a with
  | AbortFatal e => e = ErrDB "begin" \/ e = ErrDB "prepare"
  | AbortPanic => exist = false
  end.

(** Every root resolves to a path at which something exists. *)
Definition rootsExist (w : world) (dirs : list string) : bool :=
  forallb (fun dir =>
             match Abs w dir with
             | Ok abs => match Lstat w abs with Ok _ => true | Err _ => false end
             | Err _ => false
             end) dirs.

(** The rows stored by the inserts of a batch, [oks] telling which inserts
    succeeded. *)
Definition storedRows (rs : list record) (oks : list bool) : list (list string) :=
  map (fun x => insertArgs (fst x)) (filter snd (combine rs oks)).

(** ** The files a walk reaches *)

(** The regular files a walk of [n] at [path] reaches when none of them is
    hidden: path and name of each, in the order of the walk; a hidden
    directory hides what it holds. *)
Fixpoint visibleEntries (path : string) (n : node) : list (string * string) :=
  match n with
  | File name => if hidden name then [] else [(path, name)]
  | Dir name cs =>
      if hidden name then []
      else (fix each (cs : list node) : list (string * string) :=
              match cs with
              | [] => []
              | c :: cs' => visibleEntries (Filepath.Join path (nodeName c)) c ++ each cs'
              end) cs
  end.

Definition childEntries (path : string) (cs : list node) : list (string * string) :=
  flat_map (fun c => visibleEntries (Filepath.Join path (nodeName c)) c) cs.

Definition readable (w : world) (e : string * string) : bool :=
  match ReadFile w (fst e) with Ok _ => true | Err _ => false end.

(** The record of the file at the path [fst e] with the name [snd e]. *)
Definition recordAt (w : world) (e : string * string) : record :=
  {| extless := Strings.Replace (snd e) (Filepath.Ext (snd e)) "" (-1);
     ext := Filepath.Ext (snd e);
     sha1 := fst (calcSha1 w (fst e));
     path := fst e |}.

(** The files reached from a root given on the command line. *)
Definition rootEntries (w : world) (dir : string) : list (string * string) :=
  match Abs w dir with
  | Ok abs => match Lstat w abs with Ok n => visibleEntries abs n | Err _ => [] end
  | Err _ => []
  end.

(** A root that resolves and exists, under which the walk meets no hidden
    regular file and no file that cannot be read. *)
Definition cleanRoot (w : world) (dir : string) : bool :=
  match Abs w dir with
  | Ok abs =>
      match Lstat w abs with
      | Ok n => noHiddenFile n && forallb (readable w) (visibleEntries abs n)
      | Err _ => false
      end
  | Err _ => false
  end.

(** The rows of the files reached from the roots, in order. *)
Definition expectedRows (w : world) (args : list string) : list (list string) :=
  map (fun e => insertArgs (recordAt w e)) (flat_map (rootEntries w) args).

(** ** The calls to the store *)

(** The calls of a flush that goes through: begin, prepare, one insert for
    each of 1 to 100000 records, commit, close of the statement.  The
    inserts and the commit may fail. *)
Definition flushCalls (g : list Sql.op) : Prop :=
  exists rs oks okc,
    List.length oks = List.length rs /\
    0 < Z.of_nat (List.length rs) <= 100000 /\
    g = [Sql.Begin true; Sql.Prepare Sql.OnDB insertQuery true]
          ++ map (fun x => Sql.StmtExec Sql.OnDB (insertArgs (fst x)) (snd x)) (combine rs oks)
          ++ [Sql.Commit okc; Sql.StmtClose].

(** The calls of a flush that returns the error [e]. *)
Definition failedFlush (e : error) (t : list Sql.op) : Prop :=
  e = ErrDB "begin" /\ t = [Sql.Begin false] \/
  e = ErrDB "prepare" /\ t = [Sql.Begin true; Sql.Prepare Sql.OnDB insertQuery false].

(** Since the calls [o0] the store has received the calls of whole flushes
    only. *)
Definition protocol (o0 : list Sql.op) (st : state) : Prop :=
  exists groups,
    Sql.ops (db st) = o0 ++ List.concat groups /\ Forall flushCalls groups.

Definition callsInv (o0 : list Sql.op) (st : state) : Prop :=
  Z.of_nat (List.length (records st)) < 100000 /\ protocol o0 st.

(** Where the process ends: whole flushes, then the calls of the flush that
    failed if the end is [log.Fatal]. *)
Definition protocolEnd (o0 : list Sql.op) (a : abort) (st : state) : Prop :=
  exists groups tail,
    Sql.ops (db st) = o0 ++ List.concat groups ++ tail /\
    Forall flushCalls groups /\
    match a with
    | AbortFatal e => failedFlush e tail
    | AbortPanic => tail = []
    end.

(** The calls of a run of [main] on the arguments [args] that ends with
    [o]: the calls [start] of the start, the flushes [groups], the calls
    [tail] of the end. *)
Definition runCalls (args : list string) (o : outcome unit)
  (start : list Sql.op) (groups : list (list Sql.op)) (tail : list Sql.op) : Prop :=
  match args with
  | [] => start = [] /\ groups = [] /\ tail = []
  | _ :: _ =>
      match o with
      | Fatal e =>
          e = ErrDB "open" /\ start = [Sql.Open false] /\ groups = [] /\ tail = [] \/
          start = [Sql.Open true; Sql.Exec createQuery true] /\ failedFlush e tail
      | _ =>
          start = [Sql.Open true; Sql.Exec createQuery false] /\ groups = [] /\
          tail = [Sql.Close] \/
          start = [Sql.Open true; Sql.Exec createQuery true] /\ tail = [Sql.Close]
      end
  end.

(** ** Roots at which nothing exists *)

(** The path [main] walks for a root: what [filepath.Abs] returns, the
    empty path when it fails. *)
Definition rootPath (w : world) (dir : string) : string :=
  match Abs w dir with Ok abs => abs | Err _ => EmptyString end.

(** Nothing exists at the path walked for the root. *)
Definition rootMissing (w : world) (dir : string) : bool :=
  match Lstat w (rootPath w dir) with Ok _ => false | Err _ => true end.

(** ** The rows stored and the records produced *)

(** The records produced so far are the records flushed followed by the
    batch in memory, and the table has gained the rows of the flushed
    records whose insert succeeded. *)
Definition rowsInv (t0 : list (list string)) (acc : list record) (st : state) : Prop :=
  exists flushed oks,
    acc = flushed ++ records st /\
    List.length oks = List.length flushed /\
    Sql.table (db st) = t0 ++ storedRows flushed oks.

(** The same once [log.Fatal] has ended the run: the records produced are
    the records flushed followed by others. *)
Definition rowsEnd (t0 : list (list string)) (acc : list record) (st : state) : Prop :=
  exists flushed oks rest,
    acc = flushed ++ rest /\
    List.length oks = List.length flushed /\
    Sql.table (db st) = t0 ++ storedRows flushed oks.

(** [simF R Q m1 m2]: from states related by [R], either [m2] ends in
    [log.Fatal] and the final states are related by [Q], or both end alike
    in states related by [R]. *)
Definition simF {S1 S2 A : Type} (R Q : S1 -> S2 -> Prop) (m1 : M S1 A) (m2 : M S2 A)
  : Prop :=
  forall s1 s2, R s1 s2 ->
    match snd (m2 s2) with
    | Fatal _ => Q (fst (m1 s1)) (fst (m2 s2))
    | o2 => R (fst (m1 s1)) (fst (m2 s2)) /\ snd (m1 s1) = o2
    end.

(** ** Properties of the hasher *)

Lemma BEPutUint32_length v : List.length (Sha1.BEPutUint32 v) = 4%nat.
Proof. reflexivity. Qed.

Lemma checkSum_length d : List.length (Sha1.checkSum d) = Sha1.Size.
Proof.
  unfold Sha1.checkSum. cbv zeta.
  rewrite !length_app, !BEPutUint32_length. reflexivity.
Qed.

Lemma land_255_range v : 0 <= Z.land v 255 < 256.
Proof.
  change 255 with (Z.ones 8). rewrite Z.land_ones by lia.
  apply Z.mod_pos_bound. reflexivity.
Qed.

Lemma BEPutUint32_range v :
  Forall (fun b => 0 <= b < 256) (Sha1.BEPutUint32 v).
Proof. unfold Sha1.BEPutUint32. repeat constructor; apply land_255_range. Qed.

Lemma checkSum_range d : Forall (fun b => 0 <= b < 256) (Sha1.checkSum d).
Proof.
  unfold Sha1.checkSum. cbv zeta.
  repeat (apply Forall_app; split); apply BEPutUint32_range.
Qed.

Lemma digit_lower_hex k : isLowerHex (Hex.digit k) = true.
Proof.
  unfold Hex.digit. generalize (Z.to_nat k). intro n.
  do 17 (destruct n as [|n]; [reflexivity|]). reflexivity.
Qed.

(** A byte indexes [hextable] within its bounds. *)
Lemma digit_in_table v :
  0 <= v < 256 ->
  String.get (Z.to_nat (Z.shiftr v 4)) Hex.hextable <> None /\
  String.get (Z.to_nat (Z.land v 15)) Hex.hextable <> None.
Proof.
  intros Hv.
  assert (H1 : 0 <= Z.shiftr v 4 < 16).
  { rewrite Z.shiftr_div_pow2 by lia. change (2 ^ 4) with 16.
    split; [apply Z.div_pos; lia | apply Z.div_lt_upper_bound; lia]. }
  assert (H2 : 0 <= Z.land v 15 < 16).
  { change 15 with (Z.ones 4). rewrite Z.land_ones by lia.
    apply Z.mod_pos_bound. reflexivity. }
  assert (G : forall n, (n < 16)%nat -> String.get n Hex.hextable <> None).
  { intros n Hn. do 16 (destruct n as [|n]; [discriminate|]). lia. }
  split; apply G; lia.
Qed.

Lemma EncodeToString_length src :
  String.length (Hex.EncodeToString src) = (2 * List.length src)%nat.
Proof.
  induction src as [|v src IH]; [reflexivity|].
  cbn [Hex.EncodeToString String.length List.length]. rewrite IH. lia.
Qed.

Lemma EncodeToString_lower_hex src :
  allChars isLowerHex (Hex.EncodeToString src) = true.
Proof.
  induction src as [|v src IH]; [reflexivity|].
  cbn [Hex.EncodeToString allChars].
  now rewrite !digit_lower_hex, IH.
Qed.

Lemma sha1hex_length content : String.length (sha1hex content) = 40%nat.
Proof.
  unfold sha1hex, Sha1.Sum. rewrite EncodeToString_length.
  cbn [app]. now rewrite checkSum_length.
Qed.

Lemma sha1hex_lower_hex content : allChars isLowerHex (sha1hex content) = true.
Proof. apply EncodeToString_lower_hex. Qed.

Lemma sha1hex_empty : sha1hex [] = "da39a3ee5e6b4b0d3255bfef95601890afd80709".
Proof. vm_compute. reflexivity. Qed.

Lemma sha1hex_hello :
  sha1hex (bytes_of_string "hello") = "aaf4c61ddcc5e8a2dabede0f3b482cd9aea9434d".
Proof. vm_compute. reflexivity. Qed.

Lemma sha1hex_two_blocks :
  sha1hex (bytes_of_string "abcdbcdecdefdefgefghfghighijhijkijkljklmklmnlmnomnopnopq")
  = "84983e441c3bd26ebaae4aa1f95129e5e54670f1".
Proof. vm_compute. reflexivity. Qed.

(** Content longer than one chunk, and all byte values. *)
Lemma sha1hex_130 :
  sha1hex (repeat 97 130) = "e1cd437ec3e8a60db34e1d150a4fc73882d83b41".
Proof. vm_compute. reflexivity. Qed.

Lemma sha1hex_all_bytes :
  sha1hex (map Z.of_nat (seq 0 256)) = "4916d6bdb7f78e6803698cab32d1586ea457dfc8".
Proof. vm_compute. reflexivity. Qed.

Lemma sha1hex_padding_edges :
  sha1hex (repeat 97 55) = "c1c8bbdc22796e28c0e15163d20899b65621d65a" /\
  sha1hex (repeat 97 56) = "c2db330f6083854c99d4b5bfb6e8f29f201be699" /\
  sha1hex (repeat 97 63) = "03f09f5b158a7a8cdad920bddc29b81c18a551f5" /\
  sha1hex (repeat 97 64) = "0098ba824b5c16427bd7a1122a5a442a25ec644d".
Proof. vm_compute. repeat split; reflexivity. Qed.

Lemma calcSha1_ok w p content :
  ReadFile w p = Ok content -> calcSha1 w p = (sha1hex content, None).
Proof. intros H. unfold calcSha1. now rewrite H. Qed.

Lemma calcSha1_err w p e :
  ReadFile w p = Err e -> calcSha1 w p = (EmptyString, Some e).
Proof. intros H. unfold calcSha1. now rewrite H. Qed.

(** What [doVisit] returns when it returns a record. *)
Lemma doVisit_record w p info err lines r oe :
  doVisit w p info err = (lines, Ret (Some r, oe)) ->
  exists fi content,
    info = Some fi /\ Strings.HasPrefix (Name fi) "." = false /\ IsDir fi = false /\
    ReadFile w p = Ok content /\ lines = [] /\ oe = None /\
    r = {| extless := Strings.Replace (Name fi) (Filepath.Ext (Name fi)) "" (-1);
           ext := Filepath.Ext (Name fi);
           sha1 := sha1hex content;
           path := p |}.
Proof.
  unfold doVisit. destruct info as [fi|]; [|discriminate].
  destruct (Strings.HasPrefix (Name fi) ".") eqn:Hh; [discriminate|].
  destruct (IsDir fi) eqn:Hd; [discriminate|].
  destruct (ReadFile w p) as [content|e] eqn:Hr.
  - rewrite (calcSha1_ok _ _ _ Hr). intros H. injection H as <- <- <-.
    exists fi, content. repeat split; assumption.
  - rewrite (calcSha1_err _ _ _ Hr). discriminate.
Qed.

(** C8: the digest of every record is the SHA-1 of the file's content in 40
    lowercase hexadecimal characters; it depends on the content only, and
    for empty content it is the digest of the zero-length input. *)
Theorem C8_digest_of_content w p info err lines r oe :
  doVisit w p info err = (lines, Ret (Some r, oe)) ->
  exists content,
    ReadFile w p = Ok content /\
    sha1 r = sha1hex content /\
    String.length (sha1 r) = 40%nat /\
    allChars isLowerHex (sha1 r) = true /\
    (forall w' p', ReadFile w' p' = Ok content -> calcSha1 w' p' = (sha1 r, None)) /\
    (content = [] -> sha1 r = "da39a3ee5e6b4b0d3255bfef95601890afd80709").
Proof.
  intros H. apply doVisit_record in H.
  destruct H as (fi & content & _ & _ & _ & Hr & _ & _ & ->).
  exists content. cbn [sha1].
  split; [exact Hr|]. split; [reflexivity|].
  split; [apply sha1hex_length|]. split; [apply sha1hex_lower_hex|].
  split.
  - intros w' p' H'. now apply calcSha1_ok.
  - intros ->. apply sha1hex_empty.
Qed.


(** ** Extension and extension-less name *)

Lemma extLoop_no_dot before after :
  ~ In "."%char before -> Filepath.extLoop before after = EmptyString.
Proof.
  revert after. induction before as [|c before IH]; intros after Hn; [reflexivity|].
  cbn [Filepath.extLoop].
  destruct (Filepath.IsPathSeparator c); [reflexivity|].
  destruct (Ascii.eqb_spec c "."%char) as [->|Hc].
  - exfalso. apply Hn. now left.
  - apply IH. intros Hin. apply Hn. now right.
Qed.

Lemma Ext_no_dot name :
  ~ In "."%char (list_ascii_of_string name) -> Filepath.Ext name = EmptyString.
Proof.
  intros Hn. unfold Filepath.Ext. apply extLoop_no_dot.
  intros Hin. apply Hn. now apply in_rev.
Qed.

Lemma hidden_no_dot name :
  ~ In "."%char (list_ascii_of_string name) -> Strings.HasPrefix name "." = false.
Proof.
  destruct name as [|c name]; [reflexivity|]. intros Hn.
  cbn [Strings.HasPrefix].
  destruct (Ascii.eqb_spec "."%char c) as [<-|Hc]; [|reflexivity].
  exfalso. apply Hn. now left.
Qed.

Lemma append_empty_r s : (s ++ "")%string = s.
Proof. induction s as [|c s IH]; [reflexivity|]. cbn. now rewrite IH. Qed.

Lemma append_snoc l c after :
  (string_of_list_ascii (l ++ [c]) ++ after)%string
  = (string_of_list_ascii l ++ String c after)%string.
Proof. induction l as [|a l IH]; [reflexivity|]. cbn. now rewrite IH. Qed.

Lemma extLoop_suffix before after :
  exists stem,
    (string_of_list_ascii (rev before) ++ after)%string
    = (stem ++ Filepath.extLoop before after)%string.
Proof.
  revert after. induction before as [|c before IH]; intros after.
  - exists after. cbn. now rewrite append_empty_r.
  - cbn [rev Filepath.extLoop]. rewrite append_snoc.
    destruct (Filepath.IsPathSeparator c).
    + eexists. now rewrite append_empty_r.
    + destruct (Ascii.eqb c "."%char).
      * now exists (string_of_list_ascii (rev before)).
      * apply IH.
Qed.

(** [Ext] returns a suffix of the name. *)
Lemma Ext_suffix name : exists stem, name = (stem ++ Filepath.Ext name)%string.
Proof.
  unfold Filepath.Ext.
  destruct (extLoop_suffix (rev (list_ascii_of_string name)) EmptyString) as [stem H].
  exists stem. rewrite <- H, rev_involutive, string_of_list_ascii_of_string.
  now rewrite append_empty_r.
Qed.

Lemma extLoop_dot before after :
  Filepath.extLoop before after = EmptyString \/
  exists rest, Filepath.extLoop before after = String "."%char rest.
Proof.
  revert after. induction before as [|c before IH]; intros after; [now left|].
  cbn [Filepath.extLoop].
  destruct (Filepath.IsPathSeparator c); [now left|].
  destruct (Ascii.eqb_spec c "."%char) as [->|_]; [right; now exists after|apply IH].
Qed.

(** An extension, when there is one, begins with the dot. *)
Lemma Ext_dot name :
  Filepath.Ext name = EmptyString \/ exists rest, Filepath.Ext name = String "."%char rest.
Proof. apply extLoop_dot. Qed.

Lemma Replace_same s old n : Strings.Replace s old old n = s.
Proof. unfold Strings.Replace. now rewrite String.eqb_refl. Qed.

(** C10: a regular file whose base name has no dot gets a record whose
    [ext] is empty and whose [extless] is the base name itself. *)
Theorem C10_name_without_dot w p name err content :
  ~ In "."%char (list_ascii_of_string name) ->
  ReadFile w p = Ok content ->
  doVisit w p (Some {| Name := name; IsDir := false |}) err
  = ([], Ret (Some {| extless := name; ext := EmptyString;
                      sha1 := sha1hex content; path := p |}, None)).
Proof.
  intros Hn Hr. unfold doVisit. cbn [Name IsDir].
  rewrite (hidden_no_dot _ Hn), (Ext_no_dot _ Hn), Replace_same.
  now rewrite (calcSha1_ok _ _ _ Hr).
Qed.

Lemma C10_name_without_dot_witness :
  doVisit {| Abs := fun d => Ok d; Lstat := fun _ => Ok (File "Makefile");
             ReadFile := fun _ => Ok [] |}
          "/src/Makefile" (Some {| Name := "Makefile"; IsDir := false |}) None
  = ([], Ret (Some {| extless := "Makefile"; ext := EmptyString;
                      sha1 := sha1hex []; path := "/src/Makefile" |}, None)).
Proof.
  apply C10_name_without_dot.
  - cbn. intros H.
    repeat (destruct H as [H|H]; [discriminate H|]). exact H.
  - reflexivity.
Defined.

Lemma C8_digest_of_content_witness :
  exists content,
    ReadFile plainWorld "/data/a.txt" = Ok content /\
    helloDigest = sha1hex content /\
    String.length helloDigest = 40%nat /\
    allChars isLowerHex helloDigest = true /\
    (forall w' p', ReadFile w' p' = Ok content -> calcSha1 w' p' = (helloDigest, None)) /\
    (content = [] -> helloDigest = "da39a3ee5e6b4b0d3255bfef95601890afd80709").
Proof.
  apply (C8_digest_of_content plainWorld "/data/a.txt" (Some (fileInfo "a.txt")) None []
           {| extless := "a"; ext := ".txt"; sha1 := helloDigest; path := "/data/a.txt" |}
           None).
  vm_compute. reflexivity.
Defined.

(** ** The traversal *)

Lemma node_induction (P : node -> Prop) :
  (forall name, P (File name)) ->
  (forall name cs, Forall P cs -> P (Dir name cs)) ->
  forall n, P n.
Proof.
  intros HF HD. fix IH 1. intros [name|name cs].
  - apply HF.
  - apply HD. induction cs as [|c cs IHcs]; constructor.
    + apply IH.
    + apply IHcs.
Qed.

Lemma walk_Dir {S : Type} (fn : WalkFunc S) path name cs :
  walk fn path (Dir name cs)
  = (err1 <- fn path (Some (infoOf (Dir name cs))) None ;;
     match err1 with
     | Some e => ret (Some e)
     | None => walkChildren fn path cs
     end).
Proof.
  cbn [walk].
  match goal with
  | |- bind _ (fun _ => match _ with Some _ => _ | None => ?loop cs end) = _ =>
      assert (E : forall l, loop l = walkChildren fn path l)
  end.
  { induction l as [|c l IH]; [reflexivity|].
    cbn [walkChildren]. rewrite <- IH. reflexivity. }
  now rewrite E.
Qed.

Lemma walk_File {S : Type} (fn : WalkFunc S) path name :
  walk fn path (File name) = fn path (Some (infoOf (File name))) None.
Proof. reflexivity. Qed.

Lemma logAll_nil st : logAll [] st = st.
Proof. destruct st. unfold logAll. cbn. now rewrite app_nil_r. Qed.

Lemma doVisit_hidden w p info err :
  hidden (Name info) = true ->
  doVisit w p (Some info) err = ([], Ret (None, Some SkipDir)).
Proof. unfold hidden, doVisit. now intros ->. Qed.

(** For a hidden entry [visit] returns [SkipDir]: no record, no log line, no
    call to the store. *)
Lemma visit_hidden w p info err st :
  hidden (Name info) = true ->
  visit w p (Some info) err st = (st, Ret (Some SkipDir)).
Proof.
  intros H. unfold visit. rewrite (doVisit_hidden _ _ _ _ H).
  now rewrite logAll_nil.
Qed.

(** A hidden directory is not descended into: whatever its children, they
    are not walked. *)
Lemma walk_hidden_dir w path name cs st :
  hidden name = true ->
  walk (visit w) path (Dir name cs) st = (st, Ret (Some SkipDir)).
Proof.
  intros H. rewrite walk_Dir. unfold bind.
  now rewrite visit_hidden.
Qed.

(** In the loop over the children of a directory a hidden directory is
    passed over and the loop goes on. *)
Lemma walkChildren_hidden_dir w path name cs rest st :
  hidden name = true ->
  walkChildren (visit w) path (Dir name cs :: rest) st
  = walkChildren (visit w) path rest st.
Proof.
  intros H. cbn [walkChildren]. unfold bind at 1.
  now rewrite walk_hidden_dir.
Qed.

(** A hidden regular file ends the loop: [SkipDir] is returned for an entry
    that is not a directory, and the children after it are not walked. *)
Lemma walkChildren_hidden_file w path name rest st :
  hidden name = true ->
  walkChildren (visit w) path (File name :: rest) st = (st, Ret (Some SkipDir)).
Proof.
  intros H. cbn [walkChildren]. unfold bind. rewrite walk_File.
  now rewrite visit_hidden.
Qed.

(** A hidden directory before a file: the directory contributes nothing,
    the file gets its record, and the descent into [c] is logged. *)
Example scenario_run :
  main scenarioWorld ["/top"] emptyDB
  = ({| records := [{| extless := "a"; ext := ".txt"; sha1 := helloDigest;
                       path := "/top/a.txt" |}];
        db := {| Sql.table := [["a"; ".txt"; helloDigest; "/top/a.txt"]];
                 Sql.pending := [];
                 Sql.ops := [Sql.Open true; Sql.Exec createQuery true; Sql.Begin true;
                             Sql.Prepare Sql.OnDB insertQuery true;
                             Sql.StmtExec Sql.OnDB
                               ["a"; ".txt"; helloDigest; "/top/a.txt"] true;
                             Sql.Commit true; Sql.StmtClose; Sql.Close];
                 Sql.fault := fun _ => false |};
        log := [LogDescending "top"; LogDescending "c"; LogCommitting 1] |},
     Ret tt).
Proof. vm_compute. reflexivity. Qed.

(** C1: a directory holding [.hidden] and [a.txt].  No record is produced
    for [.hidden], and none for [a.txt] either, which is never visited: the
    store stays empty, whereas the same directory without [.hidden] gives
    the row of [a.txt]. *)
Theorem C1_hidden_file_ends_directory :
  produced hiddenWorld "/data" dataWithHidden = [] /\
  Sql.table (db (fst (main hiddenWorld ["/data"] emptyDB))) = [] /\
  produced plainWorld "/data" dataWithout = [recordOf "a.txt" "/data" helloBytes] /\
  Sql.table (db (fst (main plainWorld ["/data"] emptyDB)))
  = [["a"; ".txt"; "aaf4c61ddcc5e8a2dabede0f3b482cd9aea9434d"; "/data/a.txt"]].
Proof. vm_compute. repeat split; reflexivity. Qed.

(** C2: the same directory has one non-hidden regular file, [a.txt], and the
    program produces no record at all for it. *)
Theorem C2_count_differs_after_hidden_file :
  visibleFiles dataWithHidden = 1%nat /\
  List.length (produced hiddenWorld "/data" dataWithHidden) = 0%nat /\
  List.length (Sql.table (db (fst (main hiddenWorld ["/data"] emptyDB)))) = 0%nat.
Proof. vm_compute. repeat split; reflexivity. Qed.

(** *** When the count of records is the count of visible files *)

Lemma visibleFiles_Dir name cs :
  visibleFiles (Dir name cs)
  = if hidden name then 0%nat else list_sum (map visibleFiles cs).
Proof.
  cbn [visibleFiles]. destruct (hidden name); [reflexivity|].
  induction cs as [|c cs IH]; [reflexivity|].
  change (list_sum (map visibleFiles (c :: cs)))
    with (visibleFiles c + list_sum (map visibleFiles cs))%nat.
  now rewrite <- IH.
Qed.

Lemma noHiddenFile_Dir name cs :
  noHiddenFile (Dir name cs) = hidden name || forallb noHiddenFile cs.
Proof. reflexivity. Qed.

Lemma collect_hidden w p info err acc :
  hidden (Name info) = true ->
  collect w p (Some info) err acc = (acc, Ret (Some SkipDir)).
Proof.
  intros H. unfold collect. now rewrite (doVisit_hidden _ _ _ _ H).
Qed.

Lemma collect_dir w p name cs err acc :
  hidden name = false ->
  collect w p (Some (infoOf (Dir name cs))) err acc = (acc, Ret None).
Proof.
  unfold hidden. intros H. unfold collect, doVisit. cbn [infoOf nodeName nodeIsDir Name IsDir].
  now rewrite H.
Qed.

Lemma collect_file w p name err acc content :
  hidden name = false ->
  ReadFile w p = Ok content ->
  collect w p (Some (infoOf (File name))) err acc
  = (acc ++ [{| extless := Strings.Replace name (Filepath.Ext name) "" (-1);
                ext := Filepath.Ext name;
                sha1 := sha1hex content;
                path := p |}], Ret None).
Proof.
  unfold hidden. intros H Hr. unfold collect, doVisit.
  cbn [infoOf nodeName nodeIsDir Name IsDir].
  now rewrite H, (calcSha1_ok _ _ _ Hr).
Qed.

Section Count.

Variable w : world.
Hypothesis readable : forall p, exists content, ReadFile w p = Ok content.

Lemma walkChildren_counts path cs :
  Forall (countsFiles w) cs ->
  forallb noHiddenFile cs = true ->
  forall acc,
    exists recs,
      walkChildren (collect w) path cs acc = (acc ++ recs, Ret None) /\
      List.length recs = list_sum (map visibleFiles cs).
Proof.
  induction 1 as [|c cs Hc _ IH]; intros Hall acc.
  - exists []. cbn. now rewrite app_nil_r.
  - cbn [forallb] in Hall. apply andb_prop in Hall as [Hn Hall].
    destruct (Hc Hn (Filepath.Join path (nodeName c)) acc)
      as (recs1 & oe & Hw & Hlen & Hoe).
    destruct (IH Hall (acc ++ recs1)) as (recs2 & Hw2 & Hlen2).
    exists (recs1 ++ recs2).
    change (list_sum (map visibleFiles (c :: cs)))
      with (visibleFiles c + list_sum (map visibleFiles cs))%nat.
    cbn [walkChildren]. unfold bind at 1. rewrite Hw.
    rewrite length_app, Hlen, Hlen2, app_assoc.
    destruct Hoe as [->|[-> Hd]]; [|rewrite Hd; cbn [negb isSkipDir orb]];
      now rewrite Hw2.
Qed.

Lemma walk_counts n : countsFiles w n.
Proof.
  induction n as [name|name cs IH] using node_induction; intros Hn path acc.
  - cbn [noHiddenFile] in Hn. apply negb_true_iff in Hn.
    destruct (readable path) as [content Hr].
    eexists; exists None. rewrite walk_File, (collect_file _ _ _ _ _ _ Hn Hr).
    cbn [visibleFiles]. rewrite Hn. repeat split. now left.
  - rewrite noHiddenFile_Dir in Hn. rewrite walk_Dir, visibleFiles_Dir.
    unfold bind. destruct (hidden name) eqn:Hh.
    + exists [], (Some SkipDir).
      rewrite collect_hidden by exact Hh. cbn. rewrite app_nil_r.
      repeat split. now right.
    + cbn [orb] in Hn. rewrite collect_dir by exact Hh.
      destruct (walkChildren_counts path cs IH Hn acc) as (recs & Hw & Hlen).
      exists recs, None. rewrite Hw. repeat split; auto.
Qed.

(** Where the traversal meets no hidden regular file and every file can be
    read, the records produced are as many as the visible files. *)
Lemma produced_count root n :
  noHiddenFile n = true ->
  List.length (produced w root n) = visibleFiles n.
Proof.
  intros Hn. unfold produced.
  destruct (walk_counts n Hn root []) as (recs & oe & Hw & Hlen & _).
  now rewrite Hw.
Qed.

End Count.

Example produced_count_scenario :
  List.length (produced scenarioWorld "/top"
                 (Dir "top" [Dir ".secret" [File "b.txt"]; File "a.txt"; Dir "c" []]))
  = visibleFiles (Dir "top" [Dir ".secret" [File "b.txt"]; File "a.txt"; Dir "c" []]).
Proof.
  apply produced_count; [|reflexivity].
  intros p. now exists helloBytes.
Qed.

(** ** The store and the flush *)

Lemma call_noFault mk d :
  noFault d ->
  Sql.call mk d
  = ({| Sql.table := Sql.table d; Sql.pending := Sql.pending d;
        Sql.ops := Sql.ops d ++ [mk true]; Sql.fault := Sql.fault d |}, true).
Proof. intros H. unfold Sql.call. now rewrite H. Qed.

Lemma stmtExec_noFault args d :
  noFault d ->
  Sql.stmtExec Sql.OnDB args d
  = ({| Sql.table := Sql.table d ++ [args]; Sql.pending := Sql.pending d;
        Sql.ops := Sql.ops d ++ [Sql.StmtExec Sql.OnDB args true];
        Sql.fault := Sql.fault d |}, true).
Proof. intros H. unfold Sql.stmtExec. now rewrite call_noFault. Qed.

Lemma execAll_noFault rs d :
  noFault d ->
  execAll rs d
  = {| Sql.table := Sql.table d ++ map insertArgs rs;
       Sql.pending := Sql.pending d;
       Sql.ops := Sql.ops d ++ map (fun r => Sql.StmtExec Sql.OnDB (insertArgs r) true) rs;
       Sql.fault := Sql.fault d |}.
Proof.
  revert d. induction rs as [|r rs IH]; intros d H.
  - cbn. rewrite !app_nil_r. now destruct d.
  - cbn [execAll map]. rewrite stmtExec_noFault by exact H. cbn [fst].
    rewrite IH by exact H. cbn [Sql.table Sql.pending Sql.ops Sql.fault].
    now rewrite <- !app_assoc.
Qed.

(** A flush on a store without faults: the calls are [opsFor rs], the rows
    of the batch are added to the table in order, and nil is returned. *)
Lemma commitRecords_noFault rs st :
  noFault (db st) ->
  commitRecords rs st
  = ({| records := records st;
        db := {| Sql.table := Sql.table (db st) ++ map insertArgs rs;
                 Sql.pending := [];
                 Sql.ops := Sql.ops (db st) ++ opsFor rs;
                 Sql.fault := Sql.fault (db st) |};
        log := log st ++ [LogCommitting (Z.of_nat (List.length rs))] |}, None).
Proof.
  intros H. unfold commitRecords, Sql.begin, Sql.commit.
  cbn [logPrintf db]. rewrite call_noFault by exact H. cbn [negb].
  rewrite call_noFault by exact H. cbn [negb].
  rewrite execAll_noFault by exact H.
  rewrite call_noFault by exact H.
  unfold setDb, Sql.note, opsFor.
  cbn [records db log Sql.table Sql.pending Sql.ops Sql.fault].
  rewrite app_nil_r, <- !app_assoc. reflexivity.
Qed.

(** The calls of the loop of [commitRecords], whatever fails: one
    [stmt.Exec] per record, in the order of the batch, with the four fields
    of the record, each on the statement of the handle [db]; nothing is
    written within the transaction. *)
Lemma execAll_ops rs d :
  exists oks,
    List.length oks = List.length rs /\
    Sql.ops (execAll rs d)
    = Sql.ops d
        ++ map (fun x => Sql.StmtExec Sql.OnDB (insertArgs (fst x)) (snd x)) (combine rs oks) /\
    Sql.fault (execAll rs d) = Sql.fault d /\
    Sql.pending (execAll rs d) = Sql.pending d.
Proof.
  revert d. induction rs as [|r rs IH]; intros d.
  - exists []. cbn. now rewrite app_nil_r.
  - cbn [execAll]. unfold Sql.stmtExec, Sql.call. cbn [fst].
    match goal with
    | |- context [execAll rs ?d1] => destruct (IH d1) as (oks & Hl & Ho & Hf & Hp)
    end.
    exists (negb (Sql.fault d (List.length (Sql.ops d))) :: oks).
    cbn [List.length combine map fst snd]. rewrite Hl, Ho, Hf, Hp.
    cbn [Sql.ops Sql.fault Sql.pending]. now rewrite <- app_assoc.
Qed.

(** The calls of a flush for which [Begin] and [Prepare] succeed, whatever
    the inserts and the commit do: begin, prepare on [db], one insert per
    record in order, commit; and nil is returned. *)
Lemma commitRecords_calls rs st :
  Sql.fault (db st) (List.length (Sql.ops (db st))) = false ->
  Sql.fault (db st) (S (List.length (Sql.ops (db st)))) = false ->
  exists oks okc st',
    commitRecords rs st = (st', None) /\
    List.length oks = List.length rs /\
    records st' = records st /\
    Sql.ops (db st')
    = Sql.ops (db st)
        ++ [Sql.Begin true; Sql.Prepare Sql.OnDB insertQuery true]
        ++ map (fun x => Sql.StmtExec Sql.OnDB (insertArgs (fst x)) (snd x)) (combine rs oks)
        ++ [Sql.Commit okc; Sql.StmtClose].
Proof.
  intros Hb Hp. unfold commitRecords, Sql.begin, Sql.commit, Sql.call.
  cbn [logPrintf db Sql.ops Sql.fault]. rewrite Hb. cbn [negb].
  rewrite length_app. cbn [List.length]. rewrite Nat.add_1_r, Hp. cbn [negb].
  match goal with
  | |- context [execAll rs ?d1] => destruct (execAll_ops rs d1) as (oks & Hl & Ho & Hf & _)
  end.
  exists oks. eexists. eexists. split; [reflexivity|].
  split; [exact Hl|]. split; [reflexivity|].
  cbn [setDb db Sql.note Sql.ops]. rewrite Ho. cbn [Sql.ops].
  rewrite <- !app_assoc. reflexivity.
Qed.

Lemma call_onTx mk d :
  (forall b, onTx (mk b) = false) ->
  filter onTx (Sql.ops (fst (Sql.call mk d))) = filter onTx (Sql.ops d).
Proof.
  intros H. unfold Sql.call. cbn [fst Sql.ops].
  rewrite filter_app. cbn [filter]. now rewrite H, app_nil_r.
Qed.

Lemma execAll_onTx rs d :
  filter onTx (Sql.ops (execAll rs d)) = filter onTx (Sql.ops d).
Proof.
  destruct (execAll_ops rs d) as (oks & _ & Ho & _ & _). rewrite Ho, filter_app.
  assert (E : forall l : list (record * bool),
             filter onTx (map (fun x => Sql.StmtExec Sql.OnDB (insertArgs (fst x)) (snd x)) l)
             = []).
  { induction l as [|x l IH]; [reflexivity|exact IH]. }
  now rewrite E, app_nil_r.
Qed.

(** No call of a flush runs a statement within the transaction. *)
Lemma commitRecords_no_insert_in_transaction rs st :
  filter onTx (Sql.ops (db st)) = [] ->
  filter onTx (Sql.ops (db (fst (commitRecords rs st)))) = [].
Proof.
  intros H0. unfold commitRecords. cbn [logPrintf db].
  pose proof (call_onTx Sql.Begin (db st) (fun _ => eq_refl)) as H1.
  unfold Sql.begin. destruct (Sql.call Sql.Begin (db st)) as [d1 ok1].
  cbn [fst] in H1. rewrite H0 in H1.
  destruct ok1; cbn [negb fst setDb db Sql.ops]; [|exact H1].
  match goal with
  | |- context [Sql.call (Sql.Prepare Sql.OnDB insertQuery) ?d] =>
      pose proof (call_onTx (Sql.Prepare Sql.OnDB insertQuery) d (fun _ => eq_refl)) as H2;
      destruct (Sql.call (Sql.Prepare Sql.OnDB insertQuery) d) as [d2 ok2]
  end.
  cbn [fst Sql.ops] in H2. rewrite H1 in H2.
  destruct ok2; cbn [negb fst setDb db Sql.ops]; [|exact H2].
  pose proof (call_onTx Sql.Commit (execAll rs d2) (fun _ => eq_refl)) as H3.
  unfold Sql.commit. destruct (Sql.call Sql.Commit (execAll rs d2)) as [d3 ok3].
  cbn [fst] in H3. rewrite execAll_onTx, H2 in H3.
  cbn [fst setDb db Sql.note Sql.ops]. rewrite filter_app, H3. reflexivity.
Qed.

(** The only errors [commitRecords] returns are those of [Begin] and
    [Prepare]: what [Commit] returns is dropped. *)
Lemma commitRecords_error rs st st' e :
  commitRecords rs st = (st', Some e) -> e = ErrDB "begin" \/ e = ErrDB "prepare".
Proof.
  unfold commitRecords.
  destruct (Sql.begin _) as [d1 [|]]; cbn [negb].
  - destruct (Sql.call (Sql.Prepare Sql.OnDB insertQuery) d1) as [d2 [|]]; cbn [negb].
    + destruct (Sql.commit _). discriminate.
    + intros H. injection H as _ <-. now right.
  - intros H. injection H as _ <-. now left.
Qed.

(** ** Simulation between computations *)

Lemma simM_ret {S1 S2 A : Type} (R : S1 -> S2 -> Prop) (a : A) :
  simM R (ret a) (ret a).
Proof. intros s1 s2 H. now split. Qed.

Lemma simM_bind {S1 S2 A B : Type} (R : S1 -> S2 -> Prop)
  (m1 : M S1 A) (m2 : M S2 A) (k1 : A -> M S1 B) (k2 : A -> M S2 B) :
  simM R m1 m2 ->
  (forall a, simM R (k1 a) (k2 a)) ->
  simM R (bind m1 k1) (bind m2 k2).
Proof.
  intros Hm Hk s1 s2 H. unfold bind.
  destruct (Hm s1 s2 H) as [HR Ha].
  destruct (m1 s1) as [s1' [a1|e1|]], (m2 s2) as [s2' [a2|e2|]];
    cbn [fst snd agree] in *; try contradiction.
  - subst a2. now apply Hk.
  - now split.
Qed.

Section WalkSim.

Context {S1 S2 : Type} (R : S1 -> S2 -> Prop).
Variables (f : WalkFunc S1) (g : WalkFunc S2).
Hypothesis step : forall p i e, simM R (f p i e) (g p i e).

Lemma walkChildren_sim path cs :
  Forall (fun n => forall p, simM R (walk f p n) (walk g p n)) cs ->
  simM R (walkChildren f path cs) (walkChildren g path cs).
Proof.
  induction 1 as [|c cs Hc _ IH].
  - apply simM_ret.
  - cbn [walkChildren]. apply simM_bind; [apply Hc|].
    intros [e|]; [|exact IH].
    destruct (negb (nodeIsDir c) || negb (isSkipDir e)); [apply simM_ret|exact IH].
Qed.

Lemma walk_sim n : forall path, simM R (walk f path n) (walk g path n).
Proof.
  induction n as [name|name cs IH] using node_induction; intros path.
  - rewrite !walk_File. apply step.
  - rewrite !walk_Dir. apply simM_bind; [apply step|].
    intros [e|]; [apply simM_ret|]. now apply walkChildren_sim.
Qed.

Lemma Walk_sim w root : simM R (Walk w f root) (Walk w g root).
Proof.
  unfold Walk. apply simM_bind.
  - destruct (Lstat w root); [apply walk_sim|apply step].
  - intros [e|]; [|apply simM_ret].
    destruct (isSkipDir e || isSkipAll e); apply simM_ret.
Qed.

End WalkSim.

(** ** The batching of [visit] *)

Lemma doVisit_not_fatal w p i e lines e' : doVisit w p i e <> (lines, Fatal e').
Proof.
  unfold doVisit. destruct i as [fi|]; [|discriminate].
  destruct (Strings.HasPrefix (Name fi) "."); [discriminate|].
  destruct (IsDir fi); [discriminate|].
  destruct (calcSha1 w p) as [hash [err|]]; discriminate.
Qed.

Lemma batchInv_log t0 o0 acc st lines :
  batchInv t0 o0 acc st -> batchInv t0 o0 acc (logAll lines st).
Proof. intros H. exact H. Qed.

Lemma batchInv_printf t0 o0 acc st l :
  batchInv t0 o0 acc st -> batchInv t0 o0 acc (logPrintf l st).
Proof. intros H. exact H. Qed.

(** Appending a record that does not fill the batch. *)
Lemma batchInv_append t0 o0 acc st r :
  batchInv t0 o0 acc st ->
  Z.of_nat (List.length (records st ++ [r])) <> 100000 ->
  batchInv t0 o0 (acc ++ [r]) (setRecords (records st ++ [r]) st).
Proof.
  intros (Hnf & batches & Hall & Hacc & Hlt & Hops & Htab) Hne.
  split; [exact Hnf|]. exists batches. cbn [setRecords records db].
  rewrite length_app in *. cbn [List.length] in *.
  repeat split; auto; [|lia].
  now rewrite Hacc, app_assoc.
Qed.

(** Appending the record that fills the batch: the batch is flushed and
    emptied. *)
Lemma batchInv_flush t0 o0 acc st r :
  batchInv t0 o0 acc st ->
  Z.of_nat (List.length (records st ++ [r])) = 100000 ->
  let st1 := setRecords (records st ++ [r]) st in
  commitRecords (records st1) st1
  = (fst (commitRecords (records st1) st1), None) /\
  batchInv t0 o0 (acc ++ [r])
    (setRecords [] (fst (commitRecords (records st1) st1))).
Proof.
  intros (Hnf & batches & Hall & Hacc & Hlt & Hops & Htab) Hfull st1.
  rewrite commitRecords_noFault by exact Hnf. split; [reflexivity|].
  unfold st1, setRecords. cbn [fst records db Sql.fault Sql.ops Sql.table Sql.pending].
  split; [exact Hnf|]. exists (batches ++ [records st ++ [r]]).
  cbn [records db Sql.fault Sql.ops Sql.table].
  rewrite map_app, !concat_app, map_app. cbn [map List.concat]. rewrite !app_nil_r.
  split; [|split; [|split; [|split]]].
  - apply Forall_app. split; [exact Hall|]. now constructor.
  - now rewrite Hacc, app_assoc.
  - cbn. lia.
  - now rewrite Hops, <- app_assoc.
  - rewrite Htab, !map_app, <- !app_assoc. reflexivity.
Qed.

Lemma visit_sim w t0 o0 p i e :
  simM (batchInv t0 o0) (collect w p i e) (visit w p i e).
Proof.
  intros acc st Hinv. unfold collect, visit.
  destruct (doVisit w p i e) as [lines o] eqn:Hd. cbn [snd].
  pose proof (batchInv_log _ _ _ _ lines Hinv) as Hlog.
  destruct o as [[[r|] [suberr|]]|e'|].
  - now split.
  - destruct (Z.eqb_spec
      (Z.of_nat (List.length (records (setRecords (records (logAll lines st) ++ [r])
                                                  (logAll lines st))))) 100000)
      as [Hfull|Hne].
    + destruct (batchInv_flush _ _ _ _ r Hlog Hfull) as [Hc Hinv'].
      cbv zeta in Hc, Hinv'. rewrite Hc. cbn [fst snd]. now split.
    + cbn [fst snd]. split; [|reflexivity]. now apply batchInv_append.
  - now split.
  - destruct Hlog as (Hnf & batches & Hall & Hacc & Hlt & Hops & Htab).
    destruct (Z.eqb_spec (Z.of_nat (List.length (records (logAll lines st)))) 100000)
      as [Hfull|Hne]; [lia|].
    cbn [fst snd]. split; [|reflexivity].
    split; [exact Hnf|]. now exists batches.
  - exfalso. exact (doVisit_not_fatal _ _ _ _ _ _ Hd).
  - now split.
Qed.

Lemma walkRoots_sim w t0 o0 dirs :
  simM (batchInv t0 o0) (collectRoots w dirs) (walkRoots w dirs).
Proof.
  induction dirs as [|dir dirs IH].
  - apply simM_ret.
  - intros acc st Hinv. cbn [collectRoots walkRoots].
    destruct (Abs w dir) as [abs|err].
    + apply (simM_bind (batchInv t0 o0)); [|intros _; exact IH|exact Hinv].
      apply Walk_sim. apply visit_sim.
    + apply (simM_bind (batchInv t0 o0)); [|intros _; exact IH|].
      * apply Walk_sim. apply visit_sim.
      * now apply batchInv_printf.
Qed.

(** The final flush on a store without faults. *)
Lemma commitRemaining_noFault t0 o0 recs st :
  batchInv t0 o0 recs st ->
  exists st' batches,
    commitRemaining st = (st', Ret tt) /\
    noFault (db st') /\
    Forall (fun b => Z.of_nat (List.length b) = 100000) batches /\
    recs = List.concat batches ++ records st' /\
    Z.of_nat (List.length (records st')) < 100000 /\
    Sql.ops (db st')
    = o0 ++ List.concat (map opsFor batches)
         ++ match records st' with [] => [] | _ :: _ => opsFor (records st') end /\
    Sql.table (db st') = t0 ++ map insertArgs recs.
Proof.
  intros (Hnf & batches & Hall & Hacc & Hlt & Hops & Htab).
  unfold commitRemaining.
  destruct (records st) as [|r rs] eqn:Hrs.
  - exists st, batches. cbn [List.length Z.of_nat Z.ltb Z.compare].
    rewrite Hrs. rewrite !app_nil_r in *. subst recs. repeat split; auto.
  - replace (0 <? Z.of_nat (List.length (r :: rs))) with true
      by (symmetry; apply Z.ltb_lt; cbn [List.length]; lia).
    rewrite commitRecords_noFault by exact Hnf.
    eexists; exists batches. split; [reflexivity|].
    cbn [records db Sql.fault Sql.ops Sql.table]. rewrite Hrs.
    repeat split; auto.
    + now rewrite Hops, <- app_assoc.
    + now rewrite Htab, Hacc, map_app, <- app_assoc.
Qed.

Lemma batchInv_start d :
  noFault d ->
  batchInv (Sql.table d) (Sql.ops d ++ [Sql.Open true; Sql.Exec createQuery true]) []
    {| records := [];
       db := {| Sql.table := Sql.table d;
                Sql.pending := Sql.pending d;
                Sql.ops := (Sql.ops d ++ [Sql.Open true]) ++ [Sql.Exec createQuery true];
                Sql.fault := Sql.fault d |};
       log := [] |}.
Proof.
  intros H. split; [exact H|]. exists [].
  cbn [records db Sql.ops Sql.table map List.concat List.length].
  rewrite !app_nil_r, <- app_assoc.
  split; [constructor|]. split; [reflexivity|]. split; [reflexivity|].
  split; reflexivity.
Qed.

(** [main] up to the loop over the roots, on a store without faults. *)
Lemma main_unfold w a args d :
  noFault d ->
  main w (a :: args) d
  = match (_ <- walkRoots w (a :: args) ;; commitRemaining)
            {| records := [];
               db := {| Sql.table := Sql.table d;
                        Sql.pending := Sql.pending d;
                        Sql.ops := (Sql.ops d ++ [Sql.Open true])
                                     ++ [Sql.Exec createQuery true];
                        Sql.fault := Sql.fault d |};
               log := [] |} with
    | (st, Fatal e) => (st, Fatal e)
    | (st, o) => (setDb (Sql.note Sql.Close (db st)) st, o)
    end.
Proof.
  intros H. unfold main. rewrite call_noFault by exact H. cbn [negb setDb db].
  rewrite call_noFault by exact H. reflexivity.
Qed.

(** A run on a store without faults that completes: the records produced
    are flushed in batches of exactly 100000, the remainder, if any, is
    flushed once at the end, and the table gains one row per record. *)
Lemma main_noFault w args d recs :
  args <> [] ->
  noFault d ->
  collectRoots w args [] = (recs, Ret tt) ->
  exists batches rest st,
    main w args d = (st, Ret tt) /\
    recs = List.concat batches ++ rest /\
    Forall (fun b => Z.of_nat (List.length b) = 100000) batches /\
    Z.of_nat (List.length rest) < 100000 /\
    records st = rest /\
    Sql.ops (db st)
    = Sql.ops d ++ [Sql.Open true; Sql.Exec createQuery true]
        ++ List.concat (map opsFor batches)
        ++ match rest with [] => [] | _ :: _ => opsFor rest end
        ++ [Sql.Close] /\
    Sql.table (db st) = Sql.table d ++ map insertArgs recs.
Proof.
  intros Hargs Hnf Hc. destruct args as [|a args]; [contradiction|].
  rewrite main_unfold by exact Hnf.
  pose proof (walkRoots_sim w _ _ (a :: args) _ _ (batchInv_start d Hnf)) as [Hinv Hag].
  rewrite Hc in Hinv, Hag. unfold bind at 1.
  destruct (walkRoots w (a :: args) _) as [st1 o1]. cbn [fst snd] in Hinv, Hag.
  destruct o1 as [[]|e|]; cbn [agree] in Hag; try contradiction.
  destruct (commitRemaining_noFault _ _ _ _ Hinv)
    as (st2 & batches & Hcr & _ & Hall & Hrecs & Hlt & Hops & Htab).
  rewrite Hcr. exists batches, (records st2). eexists. split; [reflexivity|].
  cbn [setDb records db Sql.note Sql.ops Sql.table].
  repeat split; auto.
  rewrite Hops, <- !app_assoc. reflexivity.
Qed.

(** On a store without faults [main] never ends in [log.Fatal], whatever
    the walks return. *)
Lemma main_not_fatal w args d st e :
  noFault d -> main w args d <> (st, Fatal e).
Proof.
  intros Hnf. destruct args as [|a args]; [discriminate|].
  rewrite main_unfold by exact Hnf.
  pose proof (walkRoots_sim w _ _ (a :: args) _ _ (batchInv_start d Hnf)) as [Hinv Hag].
  unfold bind at 1.
  destruct (collectRoots w (a :: args) []) as [recs o].
  destruct (walkRoots w (a :: args) _) as [st1 o1]. cbn [fst snd] in Hinv, Hag.
  destruct o as [[]|e0|], o1 as [[]|e1|]; cbn [agree] in Hag; try contradiction.
  - destruct (commitRemaining_noFault _ _ _ _ Hinv) as (st2 & batches & Hcr & _).
    rewrite Hcr. discriminate.
  - discriminate.
Qed.

(** ** Batches *)

Lemma length_concat_full (batches : list (list record)) :
  Forall (fun b => Z.of_nat (List.length b) = 100000) batches ->
  Z.of_nat (List.length (List.concat batches)) = 100000 * Z.of_nat (List.length batches).
Proof.
  induction 1 as [|b batches Hb _ IH]; [reflexivity|].
  cbn [List.concat List.length]. rewrite length_app. lia.
Qed.

Lemma commits_app l1 l2 : commits (l1 ++ l2) = (commits l1 + commits l2)%nat.
Proof. unfold commits. now rewrite filter_app, length_app. Qed.

Lemma commits_opsFor rs : commits (opsFor rs) = 1%nat.
Proof.
  unfold opsFor. rewrite !commits_app.
  assert (H : commits (map (fun r => Sql.StmtExec Sql.OnDB (insertArgs r) true) rs) = 0%nat).
  { induction rs as [|r rs IH]; [reflexivity|exact IH]. }
  rewrite H. reflexivity.
Qed.

Lemma commits_batches batches :
  commits (List.concat (map opsFor batches)) = List.length batches.
Proof.
  induction batches as [|b batches IH]; [reflexivity|].
  cbn [map List.concat List.length]. now rewrite commits_app, commits_opsFor, IH.
Qed.

(** C6: on a store without faults, a run that completes flushes the records
    it produces in batches of exactly 100000, each flush emptying the batch,
    and flushes a non-empty remainder once at the end; the table gains one
    row per record.  With 250000 records there are two full batches and a
    remainder of 50000, three commits, and 250000 new rows. *)
Theorem C6_batches_of_100000 w args d recs :
  args <> [] ->
  noFault d ->
  collectRoots w args [] = (recs, Ret tt) ->
  exists batches rest st,
    main w args d = (st, Ret tt) /\
    recs = List.concat batches ++ rest /\
    Forall (fun b => Z.of_nat (List.length b) = 100000) batches /\
    Z.of_nat (List.length rest) < 100000 /\
    Sql.ops (db st)
    = Sql.ops d ++ [Sql.Open true; Sql.Exec createQuery true]
        ++ List.concat (map opsFor batches)
        ++ match rest with [] => [] | _ :: _ => opsFor rest end
        ++ [Sql.Close] /\
    Sql.table (db st) = Sql.table d ++ map insertArgs recs /\
    (Z.of_nat (List.length recs) = 250000 ->
     List.length batches = 2%nat /\
     Z.of_nat (List.length rest) = 50000 /\
     commits (Sql.ops (db st)) = (commits (Sql.ops d) + 3)%nat /\
     Z.of_nat (List.length (Sql.table (db st)))
     = Z.of_nat (List.length (Sql.table d)) + 250000).
Proof.
  intros Hargs Hnf Hc.
  destruct (main_noFault w args d recs Hargs Hnf Hc)
    as (batches & rest & st & Hm & Hrecs & Hall & Hlt & _ & Hops & Htab).
  exists batches, rest, st. repeat (split; [assumption|]).
  intros Hlen.
  pose proof (length_concat_full _ Hall) as Hfull.
  assert (Hsum : 100000 * Z.of_nat (List.length batches) + Z.of_nat (List.length rest)
                 = 250000).
  { rewrite <- Hfull, <- Hlen, Hrecs, length_app. lia. }
  assert (Hb : List.length batches = 2%nat) by lia.
  assert (Hr : Z.of_nat (List.length rest) = 50000) by lia.
  split; [exact Hb|]. split; [exact Hr|]. split.
  - rewrite Hops, !commits_app, commits_batches, Hb.
    destruct rest as [|r rest]; [cbn in Hr; lia|].
    rewrite commits_opsFor. cbn. lia.
  - rewrite Htab, length_app, length_map. lia.
Qed.

(** The records of the directory of numbered files. *)
Lemma bigDir_children n acc l :
  walkChildren (collect (bigWorld n)) "/data" (map (fun i => File (numberedName i)) l) acc
  = (acc ++ map (fun i => recordOf (numberedName i) "/data" []) l, Ret None).
Proof.
  revert acc. induction l as [|i l IH]; intros acc.
  - cbn. now rewrite app_nil_r.
  - cbn [map walkChildren]. unfold bind at 1. rewrite walk_File.
    rewrite (collect_file _ _ (numberedName i) None acc []) by reflexivity.
    rewrite IH, <- app_assoc. reflexivity.
Qed.

Lemma bigWorld_collect n :
  collectRoots (bigWorld n) ["/data"] []
  = (map (fun i => recordOf (numberedName i) "/data" []) (seq 0 n), Ret tt).
Proof.
  cbn [collectRoots]. unfold bind, Walk, bind. cbn [bigWorld simpleWorld Abs Lstat].
  change (lookupRoot [("/data", bigDir n)] "/data") with (Ok (bigDir n)).
  unfold bigDir at 1. rewrite walk_Dir. unfold bind.
  rewrite collect_dir by reflexivity.
  rewrite bigDir_children. reflexivity.
Qed.

Lemma C6_batches_of_100000_witness :
  exists st,
    main (bigWorld (Z.to_nat 250000)) ["/data"] emptyDB = (st, Ret tt) /\
    commits (Sql.ops (db st)) = 3%nat /\
    Z.of_nat (List.length (Sql.table (db st))) = 250000.
Proof.
  destruct (C6_batches_of_100000 (bigWorld (Z.to_nat 250000)) ["/data"] emptyDB _
              ltac:(discriminate) ltac:(intro; reflexivity) (bigWorld_collect _))
    as (batches & rest & st & Hm & _ & _ & _ & _ & _ & H).
  exists st. split; [exact Hm|].
  destruct H as (_ & _ & Hc & Ht).
  - rewrite length_map, length_seq. apply Z2Nat.id. discriminate.
  - split; [exact Hc | exact Ht].
Defined.

(** ** A file that cannot be hashed *)

Lemma visit_unreadable w p info err e st :
  hidden (Name info) = false ->
  IsDir info = false ->
  ReadFile w p = Err e ->
  visit w p (Some info) err st = (st, Ret (Some e)).
Proof.
  unfold hidden. intros Hh Hd Hr. unfold visit, doVisit.
  rewrite Hh, Hd, (calcSha1_err _ _ _ Hr). now rewrite logAll_nil.
Qed.

(** An error returned for a child ends the loop over the children, unless
    the child is a directory and the error is [SkipDir]: the children after
    it are not walked. *)
Lemma walkChildren_error {S : Type} (fn : WalkFunc S) path c rest s s' e :
  walk fn (Filepath.Join path (nodeName c)) c s = (s', Ret (Some e)) ->
  nodeIsDir c = false \/ isSkipDir e = false ->
  walkChildren fn path (c :: rest) s = (s', Ret (Some e)).
Proof.
  intros Hw Hc. cbn [walkChildren]. unfold bind. rewrite Hw.
  destruct Hc as [-> | ->]; [reflexivity|]. now rewrite orb_true_r.
Qed.

(** An error from the loop over its children is what the walk of a
    directory returns. *)
Lemma walk_Dir_error {S : Type} (fn : WalkFunc S) path name cs s s1 s' e :
  fn path (Some (infoOf (Dir name cs))) None s = (s1, Ret None) ->
  walkChildren fn path cs s1 = (s', Ret (Some e)) ->
  walk fn path (Dir name cs) s = (s', Ret (Some e)).
Proof. intros Hf Hc. rewrite walk_Dir. unfold bind. now rewrite Hf. Qed.

(** [Walk] hands such an error to its caller. *)
Lemma Walk_error {S : Type} w (fn : WalkFunc S) root n s s' e :
  Lstat w root = Ok n ->
  walk fn root n s = (s', Ret (Some e)) ->
  isSkipDir e = false -> isSkipAll e = false ->
  Walk w fn root s = (s', Ret (Some e)).
Proof.
  intros Hl Hw H1 H2. unfold Walk, bind. now rewrite Hl, Hw, H1, H2.
Qed.

Lemma walkChildren_app {S : Type} (fn : WalkFunc S) path before rest s s1 :
  walkChildren fn path before s = (s1, Ret None) ->
  walkChildren fn path (before ++ rest) s = walkChildren fn path rest s1.
Proof.
  revert s. induction before as [|c before IH]; intros s H.
  - cbn in H. now injection H as ->.
  - cbn [app walkChildren] in *. unfold bind in *.
    destruct (walk fn (Filepath.Join path (nodeName c)) c s) as [s' [[e|]|e|]];
      try discriminate.
    + destruct (negb (nodeIsDir c) || negb (isSkipDir e)); [discriminate|].
      now apply IH.
    + now apply IH.
Qed.

(** Wherever in a tree the function returns an error other than [SkipDir],
    the walk of the tree returns that error at once: at every level, the
    entries after the one that failed are not walked. *)
Lemma walk_endsAt {S : Type} (fn : WalkFunc S) e path n s s' :
  endsAt fn e path n s s' ->
  isSkipDir e = false ->
  walk fn path n s = (s', Ret (Some e)).
Proof.
  intros H He. induction H as [path n s s' Hf|path name before c after s s0 s1 s' Hf Hb _ IH].
  - destruct n as [name|name cs].
    + now rewrite walk_File.
    + rewrite walk_Dir. unfold bind. now rewrite Hf.
  - apply (walk_Dir_error fn path name _ s s0 s' e Hf).
    rewrite (walkChildren_app fn path before (c :: after) s0 s1 Hb).
    apply walkChildren_error; [exact IH|now right].
Qed.

(** [main] drops what [Walk] returns. *)
Lemma walkRoots_drops_error w dir dirs abs s s' oe :
  Abs w dir = Ok abs ->
  Walk w (visit w) abs s = (s', Ret oe) ->
  walkRoots w (dir :: dirs) s = walkRoots w dirs s'.
Proof. intros Ha Hw. cbn [walkRoots]. rewrite Ha. unfold bind. now rewrite Hw. Qed.

(** C3 as stated does not hold: a file that cannot be hashed does not end
    the run.  The walk of [/a] returns the error of [/a/bad], and the run
    goes on to [/b], flushes the record of [/b/good] and returns normally. *)
Lemma C3_counterexample :
  calcSha1 twoRootsWorld "/a/bad" = (EmptyString, Some (ErrPath "open" "/a/bad")) /\
  snd (Walk twoRootsWorld (visit twoRootsWorld) "/a" (startState emptyDB))
  = Ret (Some (ErrPath "open" "/a/bad")) /\
  snd (main twoRootsWorld ["/a"; "/b"] emptyDB) = Ret tt /\
  Sql.table (db (fst (main twoRootsWorld ["/a"; "/b"] emptyDB)))
  = [["good"; EmptyString; helloDigest; "/b/good"]] /\
  commits (Sql.ops (db (fst (main twoRootsWorld ["/a"; "/b"] emptyDB)))) = 1%nat.
Proof. vm_compute. repeat split; reflexivity. Qed.

(** C3, amended: when a regular file cannot be hashed, [visit] returns the
    error and leaves the batch and the store as they are; in the directory
    that lists the file the entries after it are not visited, and wherever
    in the tree of a root the error arises, [Walk] returns it at once; but
    [main] drops what [Walk] returns, so the remaining roots are walked and
    the final flush is made, and on a store without faults the run never
    ends in [log.Fatal]. *)
Theorem C3_hash_failure_ends_only_the_walk w p info err e st :
  hidden (Name info) = false ->
  IsDir info = false ->
  ReadFile w p = Err e ->
  visit w p (Some info) err st = (st, Ret (Some e)) /\
  (forall dir rest,
      Filepath.Join dir (Name info) = p ->
      walkChildren (visit w) dir (File (Name info) :: rest) st = (st, Ret (Some e))) /\
  (forall root n s s',
      Lstat w root = Ok n ->
      endsAt (visit w) e root n s s' ->
      isSkipDir e = false -> isSkipAll e = false ->
      Walk w (visit w) root s = (s', Ret (Some e))) /\
  (forall root roots abs s s' oe,
      Abs w root = Ok abs ->
      Walk w (visit w) abs s = (s', Ret oe) ->
      (_ <- walkRoots w (root :: roots) ;; commitRemaining) s
      = (_ <- walkRoots w roots ;; commitRemaining) s') /\
  (forall args d s e', noFault d -> main w args d <> (s, Fatal e')).
Proof.
  intros Hh Hd Hr. split; [|split; [|split; [|split]]].
  - now apply visit_unreadable.
  - intros dir rest Hp. apply walkChildren_error; [|now left].
    cbn [nodeName]. rewrite Hp, walk_File.
    now apply visit_unreadable.
  - intros root n s s' Hl Hends H1 H2.
    apply (Walk_error w (visit w) root n s s' e Hl); auto.
    now apply walk_endsAt.
  - intros root roots abs s s' oe Ha Hw.
    change ((_ <- walkRoots w (root :: roots) ;; commitRemaining) s)
      with (match walkRoots w (root :: roots) s with
            | (s0, Ret _) => commitRemaining s0
            | (s0, Fatal e0) => (s0, Fatal e0)
            | (s0, Panic) => (s0, Panic)
            end).
    now rewrite (walkRoots_drops_error _ _ _ _ _ _ _ Ha Hw).
  - intros args d s e' Hnf. now apply main_not_fatal.
Qed.

Lemma C3_hash_failure_ends_only_the_walk_witness :
  visit twoRootsWorld "/a/bad" (Some (fileInfo "bad")) None (startState emptyDB)
  = (startState emptyDB, Ret (Some (ErrPath "open" "/a/bad"))) /\
  Walk twoRootsWorld (visit twoRootsWorld) "/a" (startState emptyDB)
  = (logPrintf (LogDescending "a") (startState emptyDB),
     Ret (Some (ErrPath "open" "/a/bad"))).
Proof.
  destruct (C3_hash_failure_ends_only_the_walk twoRootsWorld "/a/bad" (fileInfo "bad") None
              (ErrPath "open" "/a/bad") (startState emptyDB))
    as (Hvisit & _ & Hwalk & _); try reflexivity.
  split; [exact Hvisit|].
  apply (Hwalk "/a" (Dir "a" [File "bad"; File "later"])); try reflexivity.
  apply (endsBelow _ _ "/a" "a" [] (File "bad") [File "later"] _
           (logPrintf (LogDescending "a") (startState emptyDB))
           (logPrintf (LogDescending "a") (startState emptyDB))); try reflexivity.
  apply endsHere. reflexivity.
Defined.

(** ** Failures of the store *)

(** C4: a store on which [tx.Commit()] fails (its sixth call).  The failure
    is not returned by [commitRecords], nothing is logged as fatal, and
    [main] returns normally. *)
Theorem C4_commit_failure_is_dropped :
  Sql.ops (db (fst (main plainWorld ["/data"] (failingAt 5))))
  = [Sql.Open true; Sql.Exec createQuery true; Sql.Begin true;
     Sql.Prepare Sql.OnDB insertQuery true;
     Sql.StmtExec Sql.OnDB ["a"; ".txt"; helloDigest; "/data/a.txt"] true;
     Sql.Commit false; Sql.StmtClose; Sql.Close] /\
  snd (main plainWorld ["/data"] (failingAt 5)) = Ret tt /\
  log (fst (main plainWorld ["/data"] (failingAt 5)))
  = [LogDescending "data"; LogCommitting 1] /\
  snd (commitRecords [recordOf "a.txt" "/data" helloBytes] (startState (failingAt 3)))
  = None.
Proof. vm_compute. repeat split; reflexivity. Qed.

(** C5: a flush of one record on a store whose [tx.Commit()] fails.  The
    insert statement is prepared on the handle [db] and not on the
    transaction, so the insert does not run within the transaction that was
    begun: the row is in the table although that transaction is never
    committed. *)
Theorem C5_insert_outside_transaction :
  let st := fst (commitRecords [recordOf "a.txt" "/data" helloBytes]
                               (startState (failingAt 3))) in
  Sql.ops (db st)
  = [Sql.Begin true; Sql.Prepare Sql.OnDB insertQuery true;
     Sql.StmtExec Sql.OnDB ["a"; ".txt"; helloDigest; "/data/a.txt"] true;
     Sql.Commit false; Sql.StmtClose] /\
  filter onTx (Sql.ops (db st)) = [] /\
  Sql.table (db st) = [["a"; ".txt"; helloDigest; "/data/a.txt"]].
Proof. vm_compute. repeat split; reflexivity. Qed.

(** ** A root that cannot be resolved *)

Lemma walkRoots_abs_error w dir dirs st e e' :
  Abs w dir = Err e ->
  Lstat w EmptyString = Err e' ->
  walkRoots w (dir :: dirs) st = (logPrintf (LogErrorDir dir) st, Panic).
Proof.
  intros Ha Hl. cbn [walkRoots]. rewrite Ha. unfold bind, Walk, bind.
  rewrite Hl. unfold visit, doVisit. now rewrite logAll_nil.
Qed.

(** C9: [filepath.Abs] fails on the first root.  The failure is logged, but
    the root is walked all the same, at the empty path: [os.Lstat] fails
    there, [visit] is called with a nil [info] and [info.Name()] panics.
    The second root, [/data], is never walked. *)
Theorem C9_unresolved_root_panics :
  snd (main noCwdWorld ["x"; "/data"] emptyDB) = Panic /\
  log (fst (main noCwdWorld ["x"; "/data"] emptyDB)) = [LogErrorDir "x"] /\
  Sql.table (db (fst (main noCwdWorld ["x"; "/data"] emptyDB))) = [] /\
  Sql.table (db (fst (main noCwdWorld ["/data"] emptyDB)))
  = [["a"; ".txt"; helloDigest; "/data/a.txt"]].
Proof. vm_compute. repeat split; reflexivity. Qed.

(** ** Names in which the extension occurs twice *)

(** C7: for [archive.tar.gz] the record has [ext = ".gz"] and
    [extless = "archive.tar"]; for [a.txt.txt] it has [ext = ".txt"] and
    [extless = "a"], not [a.txt]: every occurrence of the extension is
    removed from the name, not the last one only. *)
Theorem C7_extless_loses_inner_extension :
  doVisit plainWorld "/data/archive.tar.gz" (Some (fileInfo "archive.tar.gz")) None
  = ([], Ret (Some {| extless := "archive.tar"; ext := ".gz";
                      sha1 := helloDigest; path := "/data/archive.tar.gz" |}, None)) /\
  doVisit plainWorld "/data/a.txt.txt" (Some (fileInfo "a.txt.txt")) None
  = ([], Ret (Some {| extless := "a"; ext := ".txt";
                      sha1 := helloDigest; path := "/data/a.txt.txt" |}, None)) /\
  ("a" ++ ".txt")%string <> "a.txt.txt".
Proof. vm_compute. repeat split; try reflexivity. discriminate. Qed.

Example numberedName_42 : numberedName 42 = "f000042".
Proof. reflexivity. Qed.

(** ** What holds throughout a run, whatever fails *)

Lemma keeps_ret {S A : Type} (P : S -> Prop) W (a : A) : keeps P W (ret a).
Proof. intros s H. exact H. Qed.

Lemma keeps_bind {S A B : Type} (P : S -> Prop) W (m : M S A) (k : A -> M S B) :
  keeps P W m -> (forall a, keeps P W (k a)) -> keeps P W (bind m k).
Proof.
  intros Hm Hk s H. unfold bind. specialize (Hm s H).
  destruct (m s) as [s' [a|e|]]; [now apply Hk|exact Hm|exact Hm].
Qed.

Section WalkKeeps.

Context {S : Type} (P : S -> Prop) (W : abort -> S -> Prop).
Variable fn : WalkFunc S.
Hypothesis step : forall p i, keeps P W (fn p (Some i) None).

Lemma walkChildren_keeps path cs :
  Forall (fun n => forall p, keeps P W (walk fn p n)) cs ->
  keeps P W (walkChildren fn path cs).
Proof.
  induction 1 as [|c cs Hc _ IH].
  - apply keeps_ret.
  - cbn [walkChildren]. apply keeps_bind; [apply Hc|].
    intros [e|]; [|exact IH].
    destruct (negb (nodeIsDir c) || negb (isSkipDir e)); [apply keeps_ret|exact IH].
Qed.

Lemma walk_keeps n : forall path, keeps P W (walk fn path n).
Proof.
  induction n as [name|name cs IH] using node_induction; intros path.
  - rewrite walk_File. apply step.
  - rewrite walk_Dir. apply keeps_bind; [apply step|].
    intros [e|]; [apply keeps_ret|]. now apply walkChildren_keeps.
Qed.

Lemma Walk_keeps w root :
  (forall e, Lstat w root = Err e -> keeps P W (fn root None (Some e))) ->
  keeps P W (Walk w fn root).
Proof.
  intros Hl. unfold Walk. apply keeps_bind.
  - destruct (Lstat w root) as [n|e]; [apply walk_keeps|now apply Hl].
  - intros [e|]; [|apply keeps_ret].
    destruct (isSkipDir e || isSkipAll e); apply keeps_ret.
Qed.

End WalkKeeps.

Lemma keeps_weaken {S A : Type} (P : S -> Prop) (W W' : abort -> S -> Prop) (m : M S A) :
  (forall a s, W a s -> W' a s) -> keeps P W m -> keeps P W' m.
Proof.
  intros HW Hm s H. specialize (Hm s H).
  destruct (m s) as [s' [a|e|]]; [exact Hm| |]; now apply HW.
Qed.

Lemma keeps_and {S A : Type} (P1 P2 : S -> Prop) (W1 W2 : abort -> S -> Prop) (m : M S A) :
  keeps P1 W1 m -> keeps P2 W2 m ->
  keeps (fun s => P1 s /\ P2 s) (fun a s => W1 a s /\ W2 a s) m.
Proof.
  intros H1 H2 s [Hp1 Hp2]. specialize (H1 s Hp1). specialize (H2 s Hp2).
  destruct (m s) as [s' [a|e|]]; now split.
Qed.

Lemma runEnd_weaken t0 f0 (G G' : abort -> Prop) :
  (forall a, G a -> G' a) -> forall a s, runEnd t0 f0 G a s -> runEnd t0 f0 G' a s.
Proof. intros HG a s [H1 H2]. split; auto. Qed.

(** The inserts of a batch, whatever fails: one call per record, the rows
    of the inserts that succeed are stored in order, and whether the insert
    number [i] succeeds is what the faults of the store say of its call. *)
Lemma execAll_effect rs d :
  exists oks,
    List.length oks = List.length rs /\
    Sql.ops (execAll rs d)
    = Sql.ops d
        ++ map (fun x => Sql.StmtExec Sql.OnDB (insertArgs (fst x)) (snd x)) (combine rs oks) /\
    Sql.table (execAll rs d) = Sql.table d ++ storedRows rs oks /\
    Sql.fault (execAll rs d) = Sql.fault d /\
    Sql.pending (execAll rs d) = Sql.pending d /\
    (forall i, (i < List.length rs)%nat ->
               nth i oks true = negb (Sql.fault d (List.length (Sql.ops d) + i))).
Proof.
  revert d. induction rs as [|r rs IH]; intros d.
  - exists []. cbn. rewrite !app_nil_r. repeat split; auto. intros i Hi. lia.
  - cbn [execAll]. unfold Sql.stmtExec, Sql.call. cbn [fst].
    match goal with
    | |- context [execAll rs ?d1] =>
        destruct (IH d1) as (oks & Hl & Ho & Ht & Hf & Hp & Hn)
    end.
    cbn [Sql.ops Sql.table Sql.fault Sql.pending] in *.
    exists (negb (Sql.fault d (List.length (Sql.ops d))) :: oks).
    unfold storedRows in *.
    cbn [List.length combine map fst snd filter]. rewrite Hl, Ho, Ht, Hf, Hp.
    split; [reflexivity|]. split; [now rewrite <- app_assoc|]. split.
    { destruct (negb (Sql.fault d (List.length (Sql.ops d))));
        cbn [map fst]; now rewrite <- ?app_assoc. }
    split; [reflexivity|]. split; [reflexivity|].
    intros [|i] Hi; cbn [nth].
    + now rewrite Nat.add_0_r.
    + rewrite Hn by lia. rewrite length_app. cbn [List.length].
      do 2 f_equal. lia.
Qed.

Lemma storedRows_wellFormed rs oks :
  forallb (fun r => wellFormedRow (insertArgs r)) rs = true ->
  forallb wellFormedRow (storedRows rs oks) = true.
Proof.
  unfold storedRows. revert oks. induction rs as [|r rs IH]; intros oks H; [reflexivity|].
  destruct oks as [|ok oks]; [reflexivity|].
  cbn [forallb] in H. apply andb_prop in H as [Hr H].
  cbn [combine filter snd]. destruct ok; cbn [map forallb fst];
    [apply andb_true_intro; split; [exact Hr|]|]; now apply IH.
Qed.

(** What a flush changes, whatever fails. *)
Lemma commitRecords_effect rs st :
  exists oks,
    List.length oks = List.length rs /\
    records (fst (commitRecords rs st)) = records st /\
    Sql.fault (db (fst (commitRecords rs st))) = Sql.fault (db st) /\
    log (fst (commitRecords rs st))
    = log st ++ [LogCommitting (Z.of_nat (List.length rs))] /\
    Sql.table (db (fst (commitRecords rs st)))
    = Sql.table (db st)
        ++ match snd (commitRecords rs st) with
           | None => storedRows rs oks
           | Some _ => []
           end.
Proof.
  unfold commitRecords, Sql.begin, Sql.commit, Sql.call.
  cbn [logPrintf db Sql.ops Sql.fault Sql.table Sql.pending].
  destruct (negb (Sql.fault (db st) (List.length (Sql.ops (db st))))).
  2:{ exists (repeat true (List.length rs)). cbn. rewrite app_nil_r, repeat_length.
      repeat split; reflexivity. }
  cbn [negb Sql.ops Sql.fault Sql.table Sql.pending].
  match goal with |- context [if negb (negb ?b) then _ else _] => destruct b end.
  { exists (repeat true (List.length rs)). cbn. rewrite app_nil_r, repeat_length.
    repeat split; reflexivity. }
  cbn [negb].
  match goal with
  | |- context [execAll rs ?d1] =>
      destruct (execAll_effect rs d1) as (oks & Hl & _ & Ht & Hf & Hp & _)
  end.
  exists oks. cbn [fst snd setDb db records log Sql.note Sql.table Sql.fault Sql.pending].
  rewrite Ht, Hf, Hp. cbn [Sql.table Sql.fault Sql.pending].
  split; [exact Hl|]. split; [reflexivity|]. split; [reflexivity|]. split; [reflexivity|].
  match goal with |- context [if ?b then _ else _] => destruct b end;
    now rewrite ?app_nil_r.
Qed.

Lemma doVisit_some_no_panic w p info err : snd (doVisit w p (Some info) err) <> Panic.
Proof.
  unfold doVisit.
  destruct (Strings.HasPrefix (Name info) "."); [discriminate|].
  destruct (IsDir info); [discriminate|].
  destruct (calcSha1 w p) as [hash [e|]]; discriminate.
Qed.

Lemma doVisit_lines w p info err : Forall flushSize (fst (doVisit w p info err)).
Proof.
  unfold doVisit. destruct info as [info|]; [|constructor].
  destruct (Strings.HasPrefix (Name info) "."); [constructor|].
  destruct (IsDir info); [repeat constructor|].
  destruct (calcSha1 w p) as [hash [e|]]; constructor.
Qed.

Lemma doVisit_record_wellFormed w p info err lines r oe :
  doVisit w p info err = (lines, Ret (Some r, oe)) ->
  wellFormedRow (insertArgs r) = true.
Proof.
  intros H. apply doVisit_record in H.
  destruct H as (fi & content & _ & _ & _ & _ & _ & _ & ->).
  unfold wellFormedRow, insertArgs. cbn [sha1].
  now rewrite sha1hex_length, sha1hex_lower_hex.
Qed.

Lemma runInv_relax t0 f0 st : runInv t0 f0 false st -> runInv t0 f0 true st.
Proof. intros (H & Hr). split; [cbn in *; lia|exact Hr]. Qed.

Lemma runInv_logAll t0 f0 b st lines :
  Forall flushSize lines -> runInv t0 f0 b st -> runInv t0 f0 b (logAll lines st).
Proof.
  intros Hl (H1 & H2 & H3 & H4 & H5). unfold runInv, logAll. cbn [records db log].
  repeat (split; [assumption|]). apply Forall_app. now split.
Qed.

(** [visit] on an entry that exists keeps the invariant, and ends the
    process only through [log.Fatal] on a failed [Begin] or [Prepare]. *)
Lemma visit_keeps w t0 f0 p info err :
  keeps (runInv t0 f0 false) (runEnd t0 f0 visitAbort) (visit w p (Some info) err).
Proof.
  intros st Hinv. unfold visit.
  pose proof (doVisit_lines w p (Some info) err) as Hlines.
  pose proof (doVisit_some_no_panic w p info err) as Hnp.
  destruct (doVisit w p (Some info) err) as [lines o] eqn:Hd. cbn [fst snd] in *.
  pose proof (runInv_logAll _ _ _ _ _ Hlines Hinv) as Hinv1.
  destruct o as [[[r|] [suberr|]]|e'|]; try exact Hinv1.
  - pose proof (doVisit_record_wellFormed _ _ _ _ _ _ _ Hd) as Hr.
    destruct Hinv1 as (Hlen & Hrec & Hf & (extra & Ht & Hex) & Hlog).
    set (st0 := logAll lines st) in *.
    set (st1 := setRecords (records st0 ++ [r]) st0).
    assert (Hrec1 : forallb (fun r => wellFormedRow (insertArgs r)) (records st1) = true).
    { unfold st1, setRecords. cbn [records]. rewrite forallb_app, Hrec.
      cbn [forallb]. now rewrite Hr. }
    assert (Hlen1 : Z.of_nat (List.length (records st1))
                    = Z.of_nat (List.length (records st0)) + 1).
    { unfold st1, setRecords. cbn [records]. rewrite length_app. cbn [List.length]. lia. }
    destruct (Z.eqb_spec (Z.of_nat (List.length (records st1))) 100000) as [Hfull|Hne].
    + destruct (commitRecords_effect (records st1) st1) as (oks & Hl & Hrs & Hfa & Hlg & Htb).
      destruct (commitRecords (records st1) st1) as [st2 oe] eqn:Hc. cbn [fst snd] in *.
      assert (Hlog2 : Forall flushSize (log st2)).
      { rewrite Hlg. apply Forall_app. split; [exact Hlog|].
        constructor; [|constructor].
        change (0 < Z.of_nat (List.length (records st1)) <= 100000). lia. }
      destruct oe as [e|].
      * unfold logFatal. split.
        -- unfold runInv, logPrintf. cbn [records db log].
           rewrite Hrs, Hfa, Htb, app_nil_r. split; [lia|]. split; [exact Hrec1|].
           split; [exact Hf|]. split; [now exists extra|].
           apply Forall_app. split; [exact Hlog2|]. repeat constructor.
        -- exact (commitRecords_error _ _ _ _ Hc).
      * unfold runInv, setRecords. cbn [records db log List.length Z.of_nat].
        rewrite Hfa, Htb. split; [lia|]. split; [reflexivity|]. split; [exact Hf|].
        split; [|exact Hlog2].
        exists (extra ++ storedRows (records st1) oks).
        change (Sql.table (db st1)) with (Sql.table (db st0)).
        rewrite Ht, <- app_assoc. split; [reflexivity|].
        rewrite forallb_app, Hex. now apply storedRows_wellFormed.
    + split; [cbn [andb]; lia|]. split; [exact Hrec1|]. split; [exact Hf|].
      split; [now exists extra|exact Hlog].
  - destruct Hinv1 as (Hlen & Hrest).
    destruct (Z.eqb_spec (Z.of_nat (List.length (records (logAll lines st)))) 100000)
      as [Hfull|Hne]; [lia|].
    split; [exact Hlen|exact Hrest].
  - exfalso. exact (doVisit_not_fatal _ _ _ _ _ _ Hd).
  - now contradiction Hnp.
Qed.

Lemma visit_nil_info w p err st : visit w p None err st = (st, Panic).
Proof. unfold visit, doVisit. now rewrite logAll_nil. Qed.

Lemma visitAbort_rootsAbort b a : visitAbort a -> rootsAbort b a.
Proof. destruct a; [exact (fun H => H)|contradiction]. Qed.

Lemma walkRoots_keeps w t0 f0 dirs :
  keeps (runInv t0 f0 false) (runEnd t0 f0 (rootsAbort (rootsExist w dirs)))
        (walkRoots w dirs).
Proof.
  induction dirs as [|dir dirs IH]; [apply keeps_ret|].
  intros st H. cbn [walkRoots rootsExist forallb].
  set (rest := forallb _ dirs) in *.
  assert (Hrest : keeps (runInv t0 f0 false) (runEnd t0 f0 (rootsAbort (false && rest)))
                        (walkRoots w dirs)
                  /\ keeps (runInv t0 f0 false) (runEnd t0 f0 (rootsAbort (true && rest)))
                           (walkRoots w dirs)).
  { split; refine (keeps_weaken _ _ _ _ (runEnd_weaken _ _ _ _ _) IH);
      intros [e|]; cbn; auto. }
  destruct Hrest as [Hrf Hrt].
  destruct (Abs w dir) as [abs|e].
  - refine (keeps_bind _ _ (Walk w (visit w) abs) (fun _ => walkRoots w dirs) _ _ st H).
    + apply Walk_keeps.
      * intros p i.
        refine (keeps_weaken _ _ _ _ (runEnd_weaken _ _ _ _ _) (visit_keeps w t0 f0 p i None)).
        apply visitAbort_rootsAbort.
      * intros e He s Hs. rewrite visit_nil_info, He.
        split; [now apply runInv_relax|reflexivity].
    + intros _. destruct (Lstat w abs); [exact Hrt|exact Hrf].
  - refine (keeps_bind _ _ (Walk w (visit w) EmptyString) (fun _ => walkRoots w dirs)
                       _ _ _ _).
    + apply Walk_keeps.
      * intros p i.
        refine (keeps_weaken _ _ _ _ (runEnd_weaken _ _ _ _ _) (visit_keeps w t0 f0 p i None)).
        apply visitAbort_rootsAbort.
      * intros e' He s Hs. rewrite visit_nil_info.
        split; [now apply runInv_relax|reflexivity].
    + intros _. exact Hrf.
    + apply (runInv_logAll _ _ _ _ [LogErrorDir dir]); [repeat constructor|exact H].
Qed.

Lemma commitRemaining_keeps t0 f0 :
  keeps (runInv t0 f0 false) (runEnd t0 f0 visitAbort) commitRemaining.
Proof.
  intros st Hinv. unfold commitRemaining.
  destruct (Z.ltb_spec 0 (Z.of_nat (List.length (records st)))) as [Hpos|_]; [|exact Hinv].
  destruct Hinv as (Hlen & Hrec & Hf & (extra & Ht & Hex) & Hlog).
  destruct (commitRecords_effect (records st) st) as (oks & Hl & Hrs & Hfa & Hlg & Htb).
  destruct (commitRecords (records st) st) as [st2 oe] eqn:Hc. cbn [fst snd] in *.
  assert (Hlog2 : Forall flushSize (log st2)).
  { rewrite Hlg. apply Forall_app. split; [exact Hlog|].
    constructor; [|constructor]. cbn [flushSize]. lia. }
  destruct oe as [e|].
  - unfold logFatal. split.
    + unfold runInv, logPrintf. cbn [records db log].
      rewrite Hrs, Hfa, Htb, app_nil_r. split; [lia|]. split; [exact Hrec|].
      split; [exact Hf|]. split; [now exists extra|].
      apply Forall_app. split; [exact Hlog2|]. repeat constructor.
    + exact (commitRecords_error _ _ _ _ Hc).
  - unfold runInv. rewrite Hrs, Hfa, Htb.
    split; [exact Hlen|]. split; [exact Hrec|]. split; [exact Hf|]. split; [|exact Hlog2].
    exists (extra ++ storedRows (records st) oks).
    rewrite Ht, <- app_assoc. split; [reflexivity|].
    rewrite forallb_app, Hex. now apply storedRows_wellFormed.
Qed.

(** The invariant at the end of [main], and how [main] may end, for every
    world, every list of arguments and every store. *)
Lemma main_inv w args d :
  runInv (Sql.table d) (Sql.fault d) true (fst (main w args d)) /\
  match snd (main w args d) with
  | Ret _ => True
  | Fatal e => storeError e
  | Panic => rootsExist w args = false
  end.
Proof.
  assert (Hstart : forall o l,
             runInv (Sql.table d) (Sql.fault d) false
               {| records := [];
                  db := {| Sql.table := Sql.table d; Sql.pending := Sql.pending d;
                           Sql.ops := o; Sql.fault := Sql.fault d |};
                  log := l |} <-> Forall flushSize l).
  { intros o l. unfold runInv. cbn [records db log Sql.table Sql.fault List.length Z.of_nat forallb].
    split; [now intros (_ & _ & _ & _ & H)|]. intros H.
    split; [lia|]. split; [reflexivity|]. split; [reflexivity|]. split; [|exact H].
    exists []. now rewrite app_nil_r. }
  destruct args as [|a args].
  - cbn [main fst snd]. split; [|exact I]. apply runInv_relax.
    destruct d as [t pd o f]. apply Hstart. repeat constructor.
  - unfold main, Sql.call. cbn [setDb records db log Sql.ops Sql.table Sql.fault Sql.pending].
    destruct (negb (Sql.fault d (List.length (Sql.ops d)))); cbn [negb].
    2:{ unfold logFatal, logPrintf. cbn [fst snd records db log app].
        split; [|now left]. apply runInv_relax. apply Hstart. repeat constructor. }
    match goal with |- context [if negb (negb ?b) then _ else _] => destruct b end;
      cbn [negb].
    { unfold logPrintf, Sql.note. cbn [fst snd setDb records db log app
                                         Sql.ops Sql.table Sql.fault Sql.pending].
      split; [|exact I]. apply runInv_relax. apply Hstart. repeat constructor. }
    match goal with
    | |- context [(_ <- walkRoots w (a :: args) ;; commitRemaining) ?s0] =>
        assert (H0 : runInv (Sql.table d) (Sql.fault d) false s0)
          by (apply Hstart; constructor);
        pose proof (keeps_bind _ _ (walkRoots w (a :: args)) (fun _ => commitRemaining)
                      (walkRoots_keeps w _ _ (a :: args))
                      (fun _ => keeps_weaken _ _ _ _
                                  (runEnd_weaken _ _ _ _ (visitAbort_rootsAbort _))
                                  (commitRemaining_keeps _ _))
                      s0 H0) as Hk;
        destruct ((_ <- walkRoots w (a :: args) ;; commitRemaining) s0) as [st o]
    end.
    destruct o as [[]|e|]; cbn [fst snd].
    + split; [|exact I]. apply runInv_relax in Hk. exact Hk.
    + destruct Hk as [Hk Hg]. split; [exact Hk|]. right. exact Hg.
    + destruct Hk as [Hk Hg]. split; [exact Hk|exact Hg].
Qed.

(** X1: whatever the world and the store, [main] exits through [log.Fatal]
    only for an error of the store: of [sql.Open], or of [db.Begin] or
    [db.Prepare] in a flush.  No error of the file system is fatal. *)
Theorem fatal_only_for_store_errors w args d st e :
  main w args d = (st, Fatal e) -> storeError e.
Proof.
  intros H. pose proof (main_inv w args d) as [_ Ho]. now rewrite H in Ho.
Qed.

Lemma fatal_only_for_store_errors_witness : storeError (ErrDB "begin").
Proof.
  apply (fatal_only_for_store_errors plainWorld ["/data"] (failingAt 2)
           (fst (main plainWorld ["/data"] (failingAt 2)))).
  vm_compute. reflexivity.
Defined.



(** X3: the table is only ever appended to, and with well-formed rows: at
    the end of [main], however it ends and whatever failed, the table is
    the table of the start followed by rows of four columns whose third is
    a digest of 40 lowercase hexadecimal characters. *)
Theorem table_only_grows_by_well_formed_rows w args d :
  exists extra,
    Sql.table (db (fst (main w args d))) = Sql.table d ++ extra /\
    forallb wellFormedRow extra = true.
Proof.
  pose proof (main_inv w args d) as [(_ & _ & _ & H & _) _]. exact H.
Qed.

(** X4: whatever fails, every flush that [main] announces in its log is of
    at least 1 and at most 100000 records, and the batch in memory never
    holds more than 100000 records at the end. *)
Theorem flushes_hold_1_to_100000_records w args d :
  Forall flushSize (log (fst (main w args d))) /\
  Z.of_nat (List.length (records (fst (main w args d)))) <= 100000.
Proof.
  pose proof (main_inv w args d) as [(H1 & _ & _ & _ & H5) _]. now split.
Qed.

(** ** The flush, whatever fails *)

(** X5: a flush whose [Begin] and [Prepare] succeed is best effort.  Whatever
    the inserts and the commit do, [commitRecords] returns nil; every record
    of the batch gets its insert, in order; the rows of the inserts that
    succeed are added to the table in order and a failed insert neither
    stops the loop nor undoes the others.  Whether the insert number [i]
    succeeds is what the store says of its call. *)
Theorem flush_is_best_effort rs st :
  Sql.fault (db st) (List.length (Sql.ops (db st))) = false ->
  Sql.fault (db st) (S (List.length (Sql.ops (db st)))) = false ->
  exists oks okc st',
    commitRecords rs st = (st', None) /\
    List.length oks = List.length rs /\
    (forall i, (i < List.length rs)%nat ->
               nth i oks true
               = negb (Sql.fault (db st) (List.length (Sql.ops (db st)) + 2 + i))) /\
    records st' = records st /\
    Sql.ops (db st')
    = Sql.ops (db st)
        ++ [Sql.Begin true; Sql.Prepare Sql.OnDB insertQuery true]
        ++ map (fun x => Sql.StmtExec Sql.OnDB (insertArgs (fst x)) (snd x)) (combine rs oks)
        ++ [Sql.Commit okc; Sql.StmtClose] /\
    Sql.table (db st') = Sql.table (db st) ++ storedRows rs oks.
Proof.
  intros Hb Hp. unfold commitRecords, Sql.begin, Sql.commit, Sql.call.
  cbn [logPrintf db Sql.ops Sql.fault Sql.table Sql.pending]. rewrite Hb. cbn [negb].
  cbn [Sql.ops Sql.fault Sql.table Sql.pending].
  rewrite length_app. cbn [List.length]. rewrite Nat.add_1_r, Hp. cbn [negb].
  match goal with
  | |- context [execAll rs ?d1] =>
      destruct (execAll_effect rs d1) as (oks & Hl & Ho & Ht & Hf & Hpd & Hn)
  end.
  cbn [Sql.ops Sql.fault Sql.table Sql.pending] in *.
  exists oks. eexists. eexists. split; [reflexivity|].
  split; [exact Hl|]. split.
  { intros i Hi. rewrite (Hn i Hi), !length_app. cbn [List.length].
    do 2 f_equal. lia. }
  split; [reflexivity|].
  cbn [setDb db Sql.note Sql.ops Sql.table]. rewrite Ho, Ht, Hpd.
  split; [now rewrite <- !app_assoc|].
  match goal with |- context [if ?b then _ else _] => destruct b end;
    now rewrite ?app_nil_r.
Qed.

Lemma flush_is_best_effort_witness :
  exists st',
    commitRecords [recordOf "a.txt" "/data" helloBytes; recordOf "b.txt" "/data" helloBytes]
                  (startState (failingAt 2))
    = (st', None) /\
    Sql.table (db st') = [["b"; ".txt"; helloDigest; "/data/b.txt"]].
Proof.
  destruct (flush_is_best_effort
              [recordOf "a.txt" "/data" helloBytes; recordOf "b.txt" "/data" helloBytes]
              (startState (failingAt 2)) eq_refl eq_refl)
    as (oks & okc & st' & Hc & _).
  exists st'. split; [exact Hc|].
  change st' with (fst (st', @None error)). rewrite <- Hc. vm_compute. reflexivity.
Defined.

(** X6: when [commitRecords] returns an error, nothing was inserted: the
    table and the batch are as before, and the only calls made are the
    failed [Begin], or [Begin] and the failed [Prepare]; in that case the
    transaction that was begun is neither committed nor rolled back. *)
Theorem failed_flush_inserts_nothing rs st st' e :
  commitRecords rs st = (st', Some e) ->
  records st' = records st /\
  Sql.table (db st') = Sql.table (db st) /\
  (e = ErrDB "begin" /\ Sql.ops (db st') = Sql.ops (db st) ++ [Sql.Begin false] \/
   e = ErrDB "prepare" /\
   Sql.ops (db st')
   = Sql.ops (db st) ++ [Sql.Begin true; Sql.Prepare Sql.OnDB insertQuery false]).
Proof.
  unfold commitRecords, Sql.begin, Sql.commit, Sql.call.
  cbn [logPrintf db Sql.ops Sql.fault Sql.table Sql.pending].
  destruct (negb (Sql.fault (db st) (List.length (Sql.ops (db st))))); cbn [negb].
  - cbn [Sql.ops Sql.fault Sql.table Sql.pending].
    match goal with |- context [if negb (negb ?b) then _ else _] => destruct b end;
      cbn [negb]; [|discriminate].
    intros H. injection H as <- <-. cbn [setDb records db Sql.table Sql.ops].
    split; [reflexivity|]. split; [reflexivity|]. right.
    split; [reflexivity|]. now rewrite <- app_assoc.
  - intros H. injection H as <- <-. cbn [setDb records db Sql.table Sql.ops].
    split; [reflexivity|]. split; [reflexivity|]. now left.
Qed.

Lemma failed_flush_inserts_nothing_witness :
  Sql.table (db (fst (commitRecords [recordOf "a.txt" "/data" helloBytes]
                                    (startState (failingAt 1)))))
  = [].
Proof.
  apply (failed_flush_inserts_nothing [recordOf "a.txt" "/data" helloBytes]
           (startState (failingAt 1)) _ (ErrDB "prepare")).
  vm_compute. reflexivity.
Defined.

(** ** Hidden directories and roots that do not exist *)

(** X7: a hidden directory is passed over without a trace.  As a root, its
    walk returns nil and leaves the batch, the store and the log as they
    are, whatever it holds; as a child, the loop over its siblings goes on
    as if it were not listed. *)
Theorem hidden_directory_is_passed_over w name cs st :
  hidden name = true ->
  (forall root, Lstat w root = Ok (Dir name cs) ->
                Walk w (visit w) root st = (st, Ret None)) /\
  (forall path rest,
      walkChildren (visit w) path (Dir name cs :: rest) st
      = walkChildren (visit w) path rest st).
Proof.
  intros H. split.
  - intros root Hl. unfold Walk, bind. rewrite Hl.
    now rewrite (walk_hidden_dir w root name cs st H).
  - intros path rest. cbn [walkChildren]. unfold bind at 1.
    now rewrite (walk_hidden_dir w _ name cs st H).
Qed.

Lemma hidden_directory_is_passed_over_witness :
  Walk (simpleWorld [("/home/.cache", Dir ".cache" [File "a.txt"])] [] helloBytes)
       (visit (simpleWorld [("/home/.cache", Dir ".cache" [File "a.txt"])] [] helloBytes))
       "/home/.cache" (startState emptyDB)
  = (startState emptyDB, Ret None).
Proof.
  apply (hidden_directory_is_passed_over _ ".cache" [File "a.txt"] (startState emptyDB));
    reflexivity.
Defined.

(** X8: on a store without faults, when the run panics (a root cannot be
    resolved or does not exist) the records of the batch in memory are
    lost: the table has gained the full batches of 100000 already flushed
    and nothing of the remainder, and no final flush is made before
    [db.Close()]. *)
Theorem panic_loses_the_batch_in_memory w args d recs :
  args <> [] ->
  noFault d ->
  collectRoots w args [] = (recs, Panic) ->
  exists batches rest st,
    main w args d = (st, Panic) /\
    recs = List.concat batches ++ rest /\
    Forall (fun b => Z.of_nat (List.length b) = 100000) batches /\
    Z.of_nat (List.length rest) < 100000 /\
    Sql.table (db st) = Sql.table d ++ map insertArgs (List.concat batches) /\
    Sql.ops (db st)
    = Sql.ops d ++ [Sql.Open true; Sql.Exec createQuery true]
        ++ List.concat (map opsFor batches) ++ [Sql.Close].
Proof.
  intros Hargs Hnf Hc. destruct args as [|a args]; [contradiction|].
  rewrite main_unfold by exact Hnf.
  pose proof (walkRoots_sim w _ _ (a :: args) _ _ (batchInv_start d Hnf)) as [Hinv Hag].
  rewrite Hc in Hinv, Hag. unfold bind at 1.
  destruct (walkRoots w (a :: args) _) as [st1 o1]. cbn [fst snd] in Hinv, Hag.
  destruct o1 as [[]|e|]; cbn [agree] in Hag; try contradiction.
  destruct Hinv as (_ & batches & Hall & Hrecs & Hlt & Hops & Htab).
  exists batches, (records st1). eexists. split; [reflexivity|].
  cbn [setDb records db Sql.note Sql.ops Sql.table].
  repeat split; auto.
  rewrite Hops, <- !app_assoc. reflexivity.
Qed.

Lemma panic_loses_the_batch_in_memory_witness :
  exists st,
    main missingRootWorld ["/data"; "/missing"] emptyDB = (st, Panic) /\
    Sql.table (db st) = [].
Proof.
  destruct (panic_loses_the_batch_in_memory missingRootWorld ["/data"; "/missing"] emptyDB
              [recordOf "a.txt" "/data" helloBytes])
    as (batches & rest & st & Hm & Hrecs & Hall & _ & Ht & _).
  - discriminate.
  - intro. reflexivity.
  - vm_compute. reflexivity.
  - exists st. split; [exact Hm|].
    change st with (fst (st, @Panic unit)). rewrite <- Hm. vm_compute. reflexivity.
Defined.

(** ** Starting up *)

(** X9: how [main] starts, whatever the file system holds.  Without
    arguments it prints the usage and returns without touching the store.
    If the store cannot be opened it exits through [log.Fatal], and
    [db.Close()] is not called.  If the table cannot be created it logs the
    error with the statement, closes the store and returns normally.  In
    none of these cases is a file or a directory read. *)
Theorem startup_outcomes w args d :
  (args = [] ->
   main w args d = ({| records := []; db := d; log := [LogUsage] |}, Ret tt)) /\
  (args <> [] ->
   Sql.fault d (List.length (Sql.ops d)) = true ->
   main w args d
   = ({| records := [];
         db := {| Sql.table := Sql.table d; Sql.pending := Sql.pending d;
                  Sql.ops := Sql.ops d ++ [Sql.Open false]; Sql.fault := Sql.fault d |};
         log := [LogFatal (ErrDB "open")] |}, Fatal (ErrDB "open"))) /\
  (args <> [] ->
   Sql.fault d (List.length (Sql.ops d)) = false ->
   Sql.fault d (S (List.length (Sql.ops d))) = true ->
   main w args d
   = ({| records := [];
         db := {| Sql.table := Sql.table d; Sql.pending := Sql.pending d;
                  Sql.ops := Sql.ops d ++ [Sql.Open true; Sql.Exec createQuery false;
                                           Sql.Close];
                  Sql.fault := Sql.fault d |};
         log := [LogCreate (ErrDB "exec") createQuery] |}, Ret tt)).
Proof.
  split; [|split].
  - intros ->. reflexivity.
  - intros Ha Hf. destruct args as [|a args]; [contradiction|].
    unfold main, Sql.call. now rewrite Hf.
  - intros Ha Hf1 Hf2. destruct args as [|a args]; [contradiction|].
    unfold main, Sql.call. rewrite Hf1. cbn [negb setDb db Sql.ops Sql.fault].
    rewrite length_app. cbn [List.length]. rewrite Nat.add_1_r, Hf2.
    cbn [negb]. unfold logPrintf, Sql.note, setDb.
    cbn [records db log Sql.ops Sql.table Sql.pending Sql.fault app].
    rewrite <- !app_assoc. reflexivity.
Qed.

Lemma startup_outcomes_witness :
  main plainWorld ["/data"] (failingAt 1)
  = ({| records := [];
        db := {| Sql.table := []; Sql.pending := [];
                 Sql.ops := [Sql.Open true; Sql.Exec createQuery false; Sql.Close];
                 Sql.fault := Nat.eqb 1 |};
        log := [LogCreate (ErrDB "exec") createQuery] |}, Ret tt).
Proof.
  destruct (startup_outcomes plainWorld ["/data"] (failingAt 1)) as (_ & _ & H).
  apply H; [discriminate|reflexivity|reflexivity].
Defined.

(** ** Extension and extension-less name of a record *)

Lemma string_length_app a b :
  String.length (a ++ b)%string = (String.length a + String.length b)%nat.
Proof. induction a as [|c a IH]; [reflexivity|]. cbn. now rewrite IH. Qed.

Lemma string_app_assoc a b c : ((a ++ b) ++ c)%string = (a ++ b ++ c)%string.
Proof. induction a as [|x a IH]; [reflexivity|]. cbn. now rewrite IH. Qed.

Lemma chars_app a b :
  list_ascii_of_string (a ++ b)%string = list_ascii_of_string a ++ list_ascii_of_string b.
Proof. induction a as [|x a IH]; [reflexivity|]. cbn. now rewrite IH. Qed.

Lemma string_of_list_ascii_app l1 l2 :
  string_of_list_ascii (l1 ++ l2)
  = (string_of_list_ascii l1 ++ string_of_list_ascii l2)%string.
Proof. induction l1 as [|x l1 IH]; [reflexivity|]. cbn. now rewrite IH. Qed.

(** What the loop of [Ext] returns: nothing, or the dot it stopped at with
    the characters passed before it, none of which is a dot. *)
Lemma extLoop_shape before after :
  ~ In "."%char (list_ascii_of_string after) ->
  Filepath.extLoop before after = EmptyString \/
  exists stem t,
    string_of_list_ascii (rev before) = (stem ++ String "."%char t)%string /\
    ~ In "."%char (list_ascii_of_string (t ++ after)%string) /\
    Filepath.extLoop before after = String "."%char (t ++ after)%string.
Proof.
  revert after. induction before as [|c before IH]; intros after Ha; [now left|].
  cbn [Filepath.extLoop rev].
  destruct (Filepath.IsPathSeparator c); [now left|].
  destruct (Ascii.eqb_spec c "."%char) as [->|Hc].
  - right. exists (string_of_list_ascii (rev before)), EmptyString.
    rewrite string_of_list_ascii_app. cbn. now repeat split.
  - destruct (IH (String c after)) as [H|(stem & t & Hs & Ht & He)].
    + cbn. intros [H|H]; [now apply Hc|now apply Ha].
    + now left.
    + right. exists stem, (t ++ String c EmptyString)%string.
      rewrite string_of_list_ascii_app, Hs. cbn [string_of_list_ascii].
      assert (E : ((t ++ String c EmptyString) ++ after)%string
                  = (t ++ String c after)%string)
        by now rewrite string_app_assoc.
      rewrite E, string_app_assoc. cbn [append]. now repeat split.
Qed.

Lemma Ext_shape name :
  Filepath.Ext name = EmptyString \/
  exists stem t,
    name = (stem ++ String "."%char t)%string /\
    ~ In "."%char (list_ascii_of_string t) /\
    Filepath.Ext name = String "."%char t.
Proof.
  unfold Filepath.Ext.
  destruct (extLoop_shape (rev (list_ascii_of_string name)) EmptyString)
    as [H|(stem & t & Hs & Ht & He)]; [intros []|now left|].
  right. exists stem, t.
  rewrite rev_involutive, string_of_list_ascii_of_string in Hs.
  rewrite append_empty_r in Ht, He. now repeat split.
Qed.

Lemma extLoop_finds_dot before after :
  ~ In "/"%char before -> In "."%char before ->
  Filepath.extLoop before after <> EmptyString.
Proof.
  revert after. induction before as [|c before IH]; intros after Hs Hd; [contradiction|].
  cbn [Filepath.extLoop].
  destruct (Ascii.eqb_spec c "/"%char) as [->|Hc]; [exfalso; apply Hs; now left|].
  unfold Filepath.IsPathSeparator.
  destruct (Ascii.eqb_spec c "/"%char) as [|_]; [contradiction|].
  destruct (Ascii.eqb_spec c "."%char) as [->|Hc']; [discriminate|].
  apply IH.
  - intros H. apply Hs. now right.
  - destruct Hd as [Hd|Hd]; [now contradiction Hc'|exact Hd].
Qed.

(** X10: for a base name (no separator in it), [ext] is empty exactly when
    the name has no dot; otherwise the name is a stem, a dot and a tail
    without dots, and [ext] is that last dot with the tail. *)
Theorem ext_is_the_part_from_the_last_dot name :
  ~ In "/"%char (list_ascii_of_string name) ->
  (Filepath.Ext name = EmptyString <-> ~ In "."%char (list_ascii_of_string name)) /\
  (In "."%char (list_ascii_of_string name) ->
   exists stem t,
     name = (stem ++ String "."%char t)%string /\
     ~ In "."%char (list_ascii_of_string t) /\
     Filepath.Ext name = String "."%char t).
Proof.
  intros Hs.
  assert (Hne : In "."%char (list_ascii_of_string name) -> Filepath.Ext name <> EmptyString).
  { intros Hd. unfold Filepath.Ext. apply extLoop_finds_dot.
    - intros H. apply Hs. now apply in_rev.
    - now apply in_rev in Hd. }
  split.
  - split; [|apply Ext_no_dot]. intros He Hd. now apply (Hne Hd).
  - intros Hd. destruct (Ext_shape name) as [He|H]; [now contradiction (Hne Hd)|exact H].
Qed.

Lemma ext_is_the_part_from_the_last_dot_witness :
  Filepath.Ext "archive.tar.gz" = EmptyString
  <-> ~ In "."%char (list_ascii_of_string "archive.tar.gz").
Proof.
  apply ext_is_the_part_from_the_last_dot.
  cbn. intros H. repeat (destruct H as [H|H]; [discriminate H|]). exact H.
Defined.

Lemma HasPrefix_app s t : Strings.HasPrefix (s ++ t)%string s = true.
Proof.
  induction s as [|c s IH]; [now destruct t|].
  cbn. now rewrite Ascii.eqb_refl, IH.
Qed.

Lemma HasPrefix_refl s : Strings.HasPrefix s s = true.
Proof. induction s as [|c s IH]; [reflexivity|]. cbn. now rewrite Ascii.eqb_refl. Qed.

Lemma HasPrefix_length s p :
  Strings.HasPrefix s p = true -> (String.length p <= String.length s)%nat.
Proof.
  revert s. induction p as [|c p IH]; intros s H; [cbn; lia|].
  destruct s as [|d s]; [discriminate|].
  cbn in H. apply andb_prop in H as [_ H]. apply IH in H. cbn. lia.
Qed.

(** The occurrence of [old] at the end of [x ++ old] is counted, unless an
    earlier one is. *)
Lemma suffix_is_counted a o x k :
  (k <= String.length x)%nat ->
  (1 <= Strings.countFrom k (x ++ String a o)%string (String a o))%nat.
Proof.
  revert k. induction x as [|c x IH]; intros k Hk.
  - cbn in Hk. assert (k = 0%nat) as -> by lia.
    cbn [append Strings.countFrom].
    rewrite HasPrefix_refl. lia.
  - cbn [append Strings.countFrom]. destruct k as [|k].
    + destruct (Strings.HasPrefix _ _); [lia|]. apply IH. lia.
    + apply IH. cbn in Hk. lia.
Qed.

(** A prefix that reaches beyond [x] into a dot holds that dot. *)
Lemma prefix_over_dot x u t :
  Strings.HasPrefix (x ++ String "."%char u)%string t = true ->
  (String.length x < String.length t)%nat ->
  In "."%char (list_ascii_of_string t).
Proof.
  revert t. induction x as [|c x IH]; intros t H Hl.
  - destruct t as [|d t]; [cbn in Hl; lia|].
    cbn in H. apply andb_prop in H as [H _].
    apply Ascii.eqb_eq in H as ->. now left.
  - destruct t as [|d t]; [cbn in Hl; lia|].
    cbn in H. apply andb_prop in H as [_ H].
    right. apply IH; [exact H|cbn in Hl; lia].
Qed.

Lemma replaceFrom_skip_all n k s old new :
  (String.length s <= k)%nat -> Strings.replaceFrom n k s old new = EmptyString.
Proof.
  revert k. induction s as [|c s IH]; intros k Hk; [reflexivity|].
  destruct k as [|k]; [cbn in Hk; lia|].
  cbn [Strings.replaceFrom]. apply IH. cbn in Hk. lia.
Qed.

(** When the extension occurs once in [stem ++ ext], removing its
    occurrences leaves [stem]. *)
Lemma replace_strips_suffix t stem n :
  ~ In "."%char (list_ascii_of_string t) ->
  Strings.countFrom 0 (stem ++ String "."%char t)%string (String "."%char t) = 1%nat ->
  Strings.replaceFrom (S n) 0 (stem ++ String "."%char t)%string (String "."%char t)
                      EmptyString
  = stem.
Proof.
  intros Ht. induction stem as [|c stem IH]; intros Hc.
  - cbn [append Strings.replaceFrom]. rewrite HasPrefix_refl.
    cbn [append]. apply replaceFrom_skip_all. cbn [String.length]. lia.
  - cbn [append Strings.replaceFrom Strings.countFrom] in *.
    destruct (Strings.HasPrefix (String c (stem ++ String "."%char t)) (String "."%char t))
      eqn:Hp.
    + exfalso. injection Hc as Hc.
      rewrite ?Nat.sub_0_r in Hc.
      destruct (Nat.le_gt_cases (String.length t) (String.length stem)) as [Hle|Hgt].
      * pose proof (suffix_is_counted "."%char t stem (String.length t) Hle). lia.
      * cbn in Hp. apply andb_prop in Hp as [_ Hp].
        exact (Ht (prefix_over_dot stem t t Hp Hgt)).
    + f_equal. now apply IH.
Qed.

(** The length of what [Replace] leaves when it deletes. *)
Lemma replaceFrom_length a o s :
  forall n k, (k <= String.length s)%nat ->
    (String.length (Strings.replaceFrom n k s (String a o) EmptyString) + k
     + Nat.min n (Strings.countFrom k s (String a o)) * String.length (String a o)
     = String.length s)%nat.
Proof.
  induction s as [|c s IH]; intros n k Hk.
  - cbn in Hk. assert (k = 0%nat) as -> by lia. cbn. now rewrite Nat.min_0_r.
  - cbn [Strings.replaceFrom Strings.countFrom]. destruct k as [|k].
    + destruct n as [|n]; [cbn; lia|].
      destruct (Strings.HasPrefix (String c s) (String a o)) eqn:Hp.
      * apply HasPrefix_length in Hp. cbn [String.length] in Hp.
        cbn [append].
        replace (String.length (String a o) - 1)%nat with (String.length o)
          by (cbn [String.length]; lia).
        specialize (IH n (String.length o) ltac:(lia)).
        rewrite <- Nat.succ_min_distr. cbn [String.length] in *. lia.
      * specialize (IH (S n) 0%nat ltac:(lia)). cbn [String.length] in *. lia.
    + specialize (IH n k ltac:(cbn in Hk; lia)). cbn [String.length] in *. lia.
Qed.

Lemma Replace_delete name a o :
  Strings.Replace name (String a o) EmptyString (-1)
  = Strings.replaceFrom (Strings.countFrom 0 name (String a o)) 0 name (String a o)
                        EmptyString.
Proof.
  unfold Strings.Replace, Strings.Count. cbn [String.eqb orb Z.eqb Z.ltb Z.compare].
  destruct (Nat.eqb_spec (Strings.countFrom 0 name (String a o)) 0) as [->|_];
    [now destruct name|reflexivity].
Qed.

(** What [doVisit] stores of a name: the two parts make the name again
    exactly when the name has no extension or its extension occurs once in
    it. *)
Lemma split_iff_once name :
  ((Strings.Replace name (Filepath.Ext name) EmptyString (-1) ++ Filepath.Ext name)%string
   = name)
  <-> (Filepath.Ext name = EmptyString \/
       Strings.Count name (Filepath.Ext name) = 1%nat).
Proof.
  destruct (Ext_shape name) as [He|(stem & t & Hn & Ht & He)].
  - rewrite He, Replace_same, append_empty_r. split; [now left|reflexivity].
  - rewrite He, Replace_delete. cbn [Strings.Count].
    pose proof (replaceFrom_length "."%char t name
                  (Strings.countFrom 0 name (String "."%char t)) 0%nat ltac:(lia)) as Hl.
    rewrite Nat.min_id in Hl.
    split.
    + intros H. right. apply (f_equal String.length) in H.
      rewrite string_length_app in H. cbn [String.length] in *. nia.
    + intros [H|H]; [discriminate|].
      rewrite H. rewrite Hn at 1. rewrite Hn in H.
      rewrite (replace_strips_suffix t stem 0 Ht H). now rewrite <- Hn.
Qed.

(** X11: for every record [doVisit] returns, [extless] followed by [ext] is
    the name of the file exactly when the name has no extension or its
    extension occurs once in it: only then is [extless] the name without
    its extension. *)
Theorem extless_and_ext_make_the_name_iff_ext_occurs_once w p info err lines r oe :
  doVisit w p info err = (lines, Ret (Some r, oe)) ->
  exists fi,
    info = Some fi /\
    ((extless r ++ ext r)%string = Name fi
     <-> (ext r = EmptyString \/ Strings.Count (Name fi) (ext r) = 1%nat)).
Proof.
  intros H. apply doVisit_record in H.
  destruct H as (fi & content & -> & _ & _ & _ & _ & _ & ->).
  exists fi. split; [reflexivity|]. cbn [extless ext]. apply split_iff_once.
Qed.

Lemma extless_and_ext_make_the_name_iff_ext_occurs_once_witness :
  exists fi,
    Some (fileInfo "archive.tar.gz") = Some fi /\
    (("archive.tar" ++ ".gz")%string = Name fi
     <-> (".gz" = EmptyString \/ Strings.Count (Name fi) ".gz" = 1%nat)).
Proof.
  apply (extless_and_ext_make_the_name_iff_ext_occurs_once plainWorld "/data/archive.tar.gz"
           (Some (fileInfo "archive.tar.gz")) None []
           {| extless := "archive.tar"; ext := ".gz"; sha1 := helloDigest;
              path := "/data/archive.tar.gz" |} None).
  vm_compute. reflexivity.
Defined.

(** ** The records of a walk, in order *)

Lemma visibleEntries_Dir path name cs :
  visibleEntries path (Dir name cs)
  = if hidden name then [] else childEntries path cs.
Proof.
  cbn [visibleEntries]. destruct (hidden name); [reflexivity|].
  unfold childEntries. induction cs as [|c cs IH]; [reflexivity|].
  cbn [flat_map]. now rewrite <- IH.
Qed.

Lemma collect_file_entry w p name err acc :
  hidden name = false ->
  readable w (p, name) = true ->
  collect w p (Some (infoOf (File name))) err acc
  = (acc ++ [recordAt w (p, name)], Ret None).
Proof.
  unfold readable. cbn [fst]. intros Hh Hr.
  destruct (ReadFile w p) as [content|e] eqn:Hrf; [|discriminate].
  rewrite (collect_file _ _ _ _ _ _ Hh Hrf). unfold recordAt. cbn [fst snd].
  now rewrite (calcSha1_ok _ _ _ Hrf).
Qed.

Section Entries.

Variable w : world.

Lemma walkChildren_entries path cs :
  Forall (fun n =>
            noHiddenFile n = true ->
            forall p acc,
              forallb (readable w) (visibleEntries p n) = true ->
              exists oe,
                walk (collect w) p n acc
                = (acc ++ map (recordAt w) (visibleEntries p n), Ret oe) /\
                (oe = None \/ oe = Some SkipDir /\ nodeIsDir n = true)) cs ->
  forallb noHiddenFile cs = true ->
  forall acc,
    forallb (readable w) (childEntries path cs) = true ->
    walkChildren (collect w) path cs acc
    = (acc ++ map (recordAt w) (childEntries path cs), Ret None).
Proof.
  induction 1 as [|c cs Hc _ IH]; intros Hall acc Hr.
  - cbn. now rewrite app_nil_r.
  - cbn [forallb] in Hall. apply andb_prop in Hall as [Hn Hall].
    unfold childEntries in *. cbn [flat_map] in *.
    rewrite forallb_app in Hr. apply andb_prop in Hr as [Hr1 Hr2].
    destruct (Hc Hn (Filepath.Join path (nodeName c)) acc Hr1) as (oe & Hw & Hoe).
    cbn [walkChildren]. unfold bind at 1. rewrite Hw.
    rewrite map_app, app_assoc.
    destruct Hoe as [->|[-> Hd]]; [|rewrite Hd; cbn [negb isSkipDir orb]];
      now apply IH.
Qed.

Lemma walk_entries n :
  noHiddenFile n = true ->
  forall p acc,
    forallb (readable w) (visibleEntries p n) = true ->
    exists oe,
      walk (collect w) p n acc = (acc ++ map (recordAt w) (visibleEntries p n), Ret oe) /\
      (oe = None \/ oe = Some SkipDir /\ nodeIsDir n = true).
Proof.
  induction n as [name|name cs IH] using node_induction; intros Hn p acc Hr.
  - cbn [noHiddenFile] in Hn. apply negb_true_iff in Hn.
    cbn [visibleEntries] in *. rewrite Hn in *. cbn [forallb] in Hr.
    apply andb_prop in Hr as [Hr _].
    exists None. rewrite walk_File, (collect_file_entry _ _ _ _ _ Hn Hr).
    split; [reflexivity|now left].
  - rewrite noHiddenFile_Dir in Hn. rewrite walk_Dir. rewrite visibleEntries_Dir in *.
    unfold bind. destruct (hidden name) eqn:Hh.
    + exists (Some SkipDir). rewrite collect_hidden by exact Hh. cbn. rewrite app_nil_r.
      split; [reflexivity|now right].
    + cbn [orb] in Hn. rewrite collect_dir by exact Hh.
      exists None. rewrite (walkChildren_entries p cs IH Hn acc Hr).
      split; [reflexivity|now left].
Qed.

Lemma Walk_entries root n acc :
  Lstat w root = Ok n ->
  noHiddenFile n = true ->
  forallb (readable w) (visibleEntries root n) = true ->
  Walk w (collect w) root acc = (acc ++ map (recordAt w) (visibleEntries root n), Ret None).
Proof.
  intros Hl Hn Hr. unfold Walk, bind. rewrite Hl.
  destruct (walk_entries n Hn root acc Hr) as (oe & -> & [->|[-> _]]); reflexivity.
Qed.

Lemma collectRoots_clean args :
  forallb (cleanRoot w) args = true ->
  forall acc,
    collectRoots w args acc
    = (acc ++ map (recordAt w) (flat_map (rootEntries w) args), Ret tt).
Proof.
  induction args as [|dir args IH]; intros Hc acc.
  - cbn. now rewrite app_nil_r.
  - cbn [forallb] in Hc. apply andb_prop in Hc as [Hd Hc].
    cbn [collectRoots flat_map]. unfold cleanRoot, rootEntries in *.
    destruct (Abs w dir) as [abs|e]; [|discriminate].
    destruct (Lstat w abs) as [n|e] eqn:Hl; [|discriminate].
    apply andb_prop in Hd as [Hn Hr].
    unfold bind. rewrite (Walk_entries abs n acc Hl Hn Hr).
    rewrite IH by exact Hc. now rewrite map_app, app_assoc.
Qed.

End Entries.

(** A run over clean roots on a store without faults: it returns normally
    and the table gains the rows of the files reached, in order. *)
Lemma clean_run w args d :
  args <> [] ->
  noFault d ->
  forallb (cleanRoot w) args = true ->
  exists st,
    main w args d = (st, Ret tt) /\
    Sql.table (db st) = Sql.table d ++ expectedRows w args /\
    Sql.fault (db st) = Sql.fault d.
Proof.
  intros Ha Hnf Hc.
  destruct (main_noFault w args d _ Ha Hnf (collectRoots_clean w args Hc []))
    as (batches & rest & st & Hm & _ & _ & _ & _ & _ & Ht).
  exists st. split; [exact Hm|]. split.
  - rewrite Ht. unfold expectedRows. cbn [app]. now rewrite map_map.
  - pose proof (main_inv w args d) as [(_ & _ & Hf & _) _]. now rewrite Hm in Hf.
Qed.

(** X12: where a walk meets no hidden regular file and every file it
    reaches can be read, it produces one record for each regular file that
    is not under a hidden directory, in the order of the listing, with the
    path of the file (the path of its directory joined with its name) and
    the digest of its content. *)
Theorem records_follow_the_listing w root n :
  noHiddenFile n = true ->
  forallb (readable w) (visibleEntries root n) = true ->
  produced w root n = map (recordAt w) (visibleEntries root n).
Proof.
  intros Hn Hr. unfold produced.
  destruct (walk_entries w n Hn root [] Hr) as (oe & Hw & _). now rewrite Hw.
Qed.

Lemma records_follow_the_listing_witness :
  produced scenarioWorld "/top"
    (Dir "top" [Dir ".secret" [File "b.txt"]; File "a.txt"; Dir "c" []])
  = [{| extless := "a"; ext := ".txt"; sha1 := helloDigest; path := "/top/a.txt" |}].
Proof.
  rewrite records_follow_the_listing by reflexivity. vm_compute. reflexivity.
Defined.

(** X13: a run on a store without faults, over roots that resolve and exist
    and under which the walk meets no hidden regular file and no unreadable
    file, returns normally, and the table gains exactly the rows of the
    regular files reached from the roots, root after root, in the order of
    the walk. *)
Theorem clean_run_stores_every_file_reached w args d :
  args <> [] ->
  noFault d ->
  forallb (cleanRoot w) args = true ->
  exists st,
    main w args d = (st, Ret tt) /\
    Sql.table (db st) = Sql.table d ++ expectedRows w args.
Proof.
  intros Ha Hnf Hc. destruct (clean_run w args d Ha Hnf Hc) as (st & Hm & Ht & _).
  now exists st.
Qed.

Lemma clean_run_stores_every_file_reached_witness :
  exists st,
    main scenarioWorld ["/top"] emptyDB = (st, Ret tt) /\
    Sql.table (db st) = [["a"; ".txt"; helloDigest; "/top/a.txt"]].
Proof.
  destruct (clean_run_stores_every_file_reached scenarioWorld ["/top"] emptyDB)
    as (st & Hm & Ht).
  - discriminate.
  - intro. reflexivity.
  - reflexivity.
  - exists st. split; [exact Hm|]. rewrite Ht. vm_compute. reflexivity.
Defined.

(** X14: nothing is deduplicated.  Running the program again on the store
    the first run left, over the same roots, appends the same rows a second
    time. *)
Theorem second_run_appends_the_rows_again w args d :
  args <> [] ->
  noFault d ->
  forallb (cleanRoot w) args = true ->
  exists st1 st2,
    main w args d = (st1, Ret tt) /\
    main w args (db st1) = (st2, Ret tt) /\
    Sql.table (db st2) = Sql.table d ++ expectedRows w args ++ expectedRows w args.
Proof.
  intros Ha Hnf Hc. destruct (clean_run w args d Ha Hnf Hc) as (st1 & Hm1 & Ht1 & Hf1).
  assert (Hnf1 : noFault (db st1)) by (intros k; rewrite Hf1; apply Hnf).
  destruct (clean_run w args (db st1) Ha Hnf1 Hc) as (st2 & Hm2 & Ht2 & _).
  exists st1, st2. split; [exact Hm1|]. split; [exact Hm2|].
  now rewrite Ht2, Ht1, <- app_assoc.
Qed.

Lemma second_run_appends_the_rows_again_witness :
  exists st1 st2,
    main scenarioWorld ["/top"] emptyDB = (st1, Ret tt) /\
    main scenarioWorld ["/top"] (db st1) = (st2, Ret tt) /\
    Sql.table (db st2)
    = [["a"; ".txt"; helloDigest; "/top/a.txt"]; ["a"; ".txt"; helloDigest; "/top/a.txt"]].
Proof.
  destruct (second_run_appends_the_rows_again scenarioWorld ["/top"] emptyDB)
    as (st1 & st2 & Hm1 & Hm2 & Ht).
  - discriminate.
  - intro. reflexivity.
  - reflexivity.
  - exists st1, st2. split; [exact Hm1|]. split; [exact Hm2|].
    rewrite Ht. vm_compute. reflexivity.
Defined.

(** ** The calls to the store, whatever fails *)

(** The calls of a flush, by what it returns. *)
Lemma commitRecords_trace rs st :
  match snd (commitRecords rs st) with
  | None =>
      exists oks okc,
        List.length oks = List.length rs /\
        Sql.ops (db (fst (commitRecords rs st)))
        = Sql.ops (db st)
            ++ [Sql.Begin true; Sql.Prepare Sql.OnDB insertQuery true]
            ++ map (fun x => Sql.StmtExec Sql.OnDB (insertArgs (fst x)) (snd x))
                   (combine rs oks)
            ++ [Sql.Commit okc; Sql.StmtClose]
  | Some e =>
      exists t,
        failedFlush e t /\
        Sql.ops (db (fst (commitRecords rs st))) = Sql.ops (db st) ++ t
  end.
Proof.
  destruct (Sql.fault (db st) (List.length (Sql.ops (db st)))) eqn:Hb.
  - unfold commitRecords, Sql.begin, Sql.call.
    cbn [logPrintf db Sql.ops Sql.fault Sql.table Sql.pending]. rewrite Hb.
    cbn [negb fst snd setDb db Sql.ops].
    exists [Sql.Begin false]. split; [now left|reflexivity].
  - destruct (Sql.fault (db st) (S (List.length (Sql.ops (db st))))) eqn:Hp.
    + unfold commitRecords, Sql.begin, Sql.call.
      cbn [logPrintf db Sql.ops Sql.fault Sql.table Sql.pending]. rewrite Hb.
      cbn [negb Sql.ops Sql.fault Sql.table Sql.pending].
      rewrite length_app. cbn [List.length]. rewrite Nat.add_1_r, Hp.
      cbn [negb fst snd setDb db Sql.ops].
      exists [Sql.Begin true; Sql.Prepare Sql.OnDB insertQuery false].
      split; [now right|now rewrite <- app_assoc].
    + destruct (commitRecords_calls rs st Hb Hp) as (oks & okc & st' & Hc & Hl & _ & Ho).
      rewrite Hc. cbn [fst snd]. now exists oks, okc.
Qed.

Lemma protocol_flush o0 rs st :
  0 < Z.of_nat (List.length rs) <= 100000 ->
  protocol o0 st ->
  match snd (commitRecords rs st) with
  | None => protocol o0 (fst (commitRecords rs st))
  | Some e => protocolEnd o0 (AbortFatal e) (fst (commitRecords rs st))
  end.
Proof.
  intros Hlen (groups & Hops & Hall). pose proof (commitRecords_trace rs st) as H.
  destruct (commitRecords rs st) as [st' [e|]]; cbn [fst snd] in *.
  - destruct H as (t & Hf & Ho). exists groups, t.
    split; [now rewrite Ho, Hops, <- app_assoc|]. now split.
  - destruct H as (oks & okc & Hl & Ho).
    eexists (groups ++ [_]). split.
    + rewrite Ho, Hops, concat_app. cbn [List.concat]. rewrite app_nil_r, <- app_assoc.
      reflexivity.
    + apply Forall_app. split; [exact Hall|]. constructor; [|constructor].
      now exists rs, oks, okc.
Qed.

Lemma protocol_panic o0 st : protocol o0 st -> protocolEnd o0 AbortPanic st.
Proof.
  intros (groups & Hops & Hall). exists groups, [].
  rewrite app_nil_r. now repeat split.
Qed.

(** [visit] keeps the calls to the store in whole flushes, on every entry
    and whatever fails. *)
Lemma visit_calls w o0 p info err :
  keeps (callsInv o0) (protocolEnd o0) (visit w p info err).
Proof.
  intros st [Hlen Hp]. unfold visit.
  destruct (doVisit w p info err) as [lines o] eqn:Hd.
  assert (Hflush : forall st1 : state,
             Sql.ops (db st1) = Sql.ops (db st) ->
             Z.of_nat (List.length (records st1)) <= Z.of_nat (List.length (records st)) + 1 ->
             match
               (if Z.of_nat (List.length (records st1)) =? 100000
                then let (st2, err) := commitRecords (records st1) st1 in
                     match err with
                     | Some e => logFatal e st2
                     | None => (setRecords [] st2, Ret None)
                     end
                else (st1, Ret (@None error)))
             with
             | (s', Ret _) => callsInv o0 s'
             | (s', Fatal e) => protocolEnd o0 (AbortFatal e) s'
             | (s', Panic) => protocolEnd o0 AbortPanic s'
             end).
  { intros st1 Ho Hl.
    assert (Hp1 : protocol o0 st1).
    { destruct Hp as (groups & Hops & Hall). exists groups. now rewrite Ho. }
    destruct (Z.eqb_spec (Z.of_nat (List.length (records st1))) 100000) as [Hfull|Hne].
    - pose proof (protocol_flush o0 (records st1) st1 ltac:(lia) Hp1) as Hf.
      destruct (commitRecords (records st1) st1) as [st2 [e|]]; cbn [fst snd] in Hf.
      + exact Hf.
      + split; [cbn; lia|exact Hf].
    - split; [lia|exact Hp1]. }
  destruct o as [[[r|] [suberr|]]|e'|].
  - split; [exact Hlen|exact Hp].
  - apply Hflush; [reflexivity|].
    unfold setRecords, logAll. cbn [records]. rewrite length_app. cbn [List.length]. lia.
  - split; [exact Hlen|exact Hp].
  - apply Hflush; [reflexivity|]. unfold logAll. cbn [records]. lia.
  - exfalso. exact (doVisit_not_fatal _ _ _ _ _ _ Hd).
  - now apply protocol_panic.
Qed.

Lemma walkRoots_calls w o0 dirs :
  keeps (callsInv o0) (protocolEnd o0) (walkRoots w dirs).
Proof.
  induction dirs as [|dir dirs IH]; [apply keeps_ret|].
  intros st H. cbn [walkRoots].
  assert (HW : forall root, keeps (callsInv o0) (protocolEnd o0) (Walk w (visit w) root)).
  { intros root. apply Walk_keeps; intros; apply visit_calls. }
  destruct (Abs w dir) as [abs|e].
  - exact (keeps_bind _ _ _ (fun _ => walkRoots w dirs) (HW abs) (fun _ => IH) st H).
  - exact (keeps_bind _ _ _ (fun _ => walkRoots w dirs) (HW EmptyString) (fun _ => IH)
             (logPrintf (LogErrorDir dir) st) H).
Qed.

Lemma commitRemaining_calls o0 :
  keeps (callsInv o0) (protocolEnd o0) commitRemaining.
Proof.
  intros st [Hlen Hp]. unfold commitRemaining.
  destruct (Z.ltb_spec 0 (Z.of_nat (List.length (records st)))) as [Hpos|_];
    [|now split].
  pose proof (protocol_flush o0 (records st) st ltac:(lia) Hp) as Hf.
  pose proof (commitRecords_effect (records st) st) as (_ & _ & Hrs & _).
  destruct (commitRecords (records st) st) as [st2 [e|]]; cbn [fst snd] in *.
  - exact Hf.
  - split; [now rewrite Hrs|exact Hf].
Qed.

(** X15: the calls the store receives in a run, whatever the file system
    holds and whatever fails.  After [sql.Open] and the creation of the
    table come whole flushes only: begin, prepare, one insert for each of 1
    to 100000 records, commit, close of the statement; so every insert is
    called between a begin and the commit that follows it, and no
    transaction is begun for an empty batch.  When
    [main] returns or panics, [db.Close()] is the last call; when it exits
    through [log.Fatal], the last calls are those of the flush that failed
    and the store is not closed.  Without arguments no call is made. *)
Theorem store_calls_are_whole_flushes w args d :
  exists start groups tail,
    Sql.ops (db (fst (main w args d)))
    = Sql.ops d ++ start ++ List.concat groups ++ tail /\
    Forall flushCalls groups /\
    runCalls args (snd (main w args d)) start groups tail.
Proof.
  destruct args as [|a args].
  - exists [], [], []. cbn. rewrite app_nil_r. now repeat split.
  - unfold main, Sql.call. cbn [setDb records db log Sql.ops Sql.table Sql.fault Sql.pending].
    destruct (negb (Sql.fault d (List.length (Sql.ops d)))); cbn [negb].
    2:{ exists [Sql.Open false], [], []. cbn. split; [reflexivity|].
        split; [constructor|]. left. now repeat split. }
    match goal with |- context [if negb (negb ?b) then _ else _] => destruct b end;
      cbn [negb].
    { exists [Sql.Open true; Sql.Exec createQuery false], [], [Sql.Close].
      cbn [fst snd setDb db Sql.note Sql.ops List.concat runCalls app].
      split; [now rewrite <- !app_assoc|]. split; [constructor|]. left. now repeat split. }
    match goal with
    | |- context [(_ <- walkRoots w (a :: args) ;; commitRemaining) ?s0] =>
        assert (H0 : callsInv ((Sql.ops d ++ [Sql.Open true])
                                 ++ [Sql.Exec createQuery true]) s0)
          by (split; [cbn; lia|exists []; cbn; now rewrite app_nil_r]);
        pose proof (keeps_bind _ _ (walkRoots w (a :: args)) (fun _ => commitRemaining)
                      (walkRoots_calls w _ (a :: args))
                      (fun _ => commitRemaining_calls _) s0 H0) as Hk;
        destruct ((_ <- walkRoots w (a :: args) ;; commitRemaining) s0) as [st o]
    end.
    destruct o as [[]|e|]; cbn [fst snd setDb db Sql.note Sql.ops runCalls].
    + destruct Hk as (_ & groups & Hops & Hall).
      exists [Sql.Open true; Sql.Exec createQuery true], groups, [Sql.Close].
      split; [rewrite Hops, <- !app_assoc; reflexivity|]. split; [exact Hall|]. now right.
    + destruct Hk as (groups & tail & Hops & Hall & Hf).
      exists [Sql.Open true; Sql.Exec createQuery true], groups, tail.
      split; [rewrite Hops, <- !app_assoc; reflexivity|]. split; [exact Hall|]. now right.
    + destruct Hk as (groups & tail & Hops & Hall & ->).
      exists [Sql.Open true; Sql.Exec createQuery true], groups, [Sql.Close].
      split; [rewrite Hops, app_nil_r, <- !app_assoc; reflexivity|].
      split; [exact Hall|]. now right.
Qed.

(** ** A hidden or unreadable file in the listing *)

Lemma collect_unreadable w p name err acc e :
  hidden name = false ->
  ReadFile w p = Err e ->
  collect w p (Some (infoOf (File name))) err acc = (acc, Ret (Some e)).
Proof.
  unfold hidden. intros Hh Hr. unfold collect, doVisit.
  cbn [infoOf nodeName nodeIsDir Name IsDir].
  now rewrite Hh, (calcSha1_err _ _ _ Hr).
Qed.

(** The children listed before the others, when the walk meets no hidden
    regular file and no unreadable file under them. *)
Lemma walkChildren_before w path before rest acc :
  forallb noHiddenFile before = true ->
  forallb (readable w) (childEntries path before) = true ->
  walkChildren (collect w) path (before ++ rest) acc
  = walkChildren (collect w) path rest
      (acc ++ map (recordAt w) (childEntries path before)).
Proof.
  intros Hn Hr. apply walkChildren_app. apply walkChildren_entries; try assumption.
  apply Forall_forall. intros n _ Hnn p acc' Hr'. now apply walk_entries.
Qed.

(** The walk of a directory in which the file [f] makes the function
    return the error [e]: the records are those of the children listed
    before [f]. *)
Lemma walk_cut w path name before f after acc e :
  hidden name = false ->
  forallb noHiddenFile before = true ->
  forallb (readable w) (childEntries path before) = true ->
  (forall acc', collect w (Filepath.Join path f) (Some (infoOf (File f))) None acc'
                = (acc', Ret (Some e))) ->
  walk (collect w) path (Dir name (before ++ File f :: after)) acc
  = (acc ++ map (recordAt w) (childEntries path before), Ret (Some e)).
Proof.
  intros Hh Hn Hr Hf. rewrite walk_Dir. unfold bind at 1.
  rewrite (collect_dir _ _ _ _ _ _ Hh), (walkChildren_before _ _ _ _ _ Hn Hr).
  cbn [walkChildren]. unfold bind. rewrite walk_File. cbn [nodeName]. now rewrite Hf.
Qed.

Lemma collectRoots_app w args1 args2 acc acc1 :
  collectRoots w args1 acc = (acc1, Ret tt) ->
  collectRoots w (args1 ++ args2) acc = collectRoots w args2 acc1.
Proof.
  revert acc. induction args1 as [|dir args1 IH]; intros acc H.
  - cbn in H. now injection H as ->.
  - cbn [app collectRoots] in *. unfold bind in *.
    destruct (Walk w (collect w) _ acc) as [acc' [oe|e|]]; try discriminate.
    now apply IH.
Qed.

(** X16: a hidden file ends the listing of its directory only; a file that
    cannot be read ends the whole walk.  In a directory that is not hidden,
    where the walk meets no hidden and no unreadable file under the
    children listed before the file [f]: if [f] is hidden, the directory
    gives the records of those children and the loop goes on with the
    siblings of the directory; if [f] cannot be read, the loop ends with
    the error and the siblings of the directory are not walked.  In both
    cases the files listed after [f] get no record. *)
Theorem hidden_file_ends_its_directory_unreadable_file_ends_the_walk
  w path name before f after rest acc :
  hidden name = false ->
  forallb noHiddenFile before = true ->
  forallb (readable w) (childEntries (Filepath.Join path name) before) = true ->
  (hidden f = true ->
   walkChildren (collect w) path (Dir name (before ++ File f :: after) :: rest) acc
   = walkChildren (collect w) path rest
       (acc ++ map (recordAt w) (childEntries (Filepath.Join path name) before))) /\
  (forall e,
      hidden f = false ->
      ReadFile w (Filepath.Join (Filepath.Join path name) f) = Err e ->
      isSkipDir e = false ->
      walkChildren (collect w) path (Dir name (before ++ File f :: after) :: rest) acc
      = (acc ++ map (recordAt w) (childEntries (Filepath.Join path name) before),
         Ret (Some e))).
Proof.
  intros Hh Hn Hr. split.
  - intros Hf. cbn [walkChildren nodeName]. unfold bind at 1.
    rewrite (walk_cut w _ name before f after acc SkipDir Hh Hn Hr).
    + reflexivity.
    + intros acc'. now apply collect_hidden.
  - intros e Hf He Hs. cbn [walkChildren nodeName]. unfold bind at 1.
    rewrite (walk_cut w _ name before f after acc e Hh Hn Hr).
    + cbn [nodeIsDir negb orb]. now rewrite Hs.
    + intros acc'. now apply collect_unreadable.
Qed.

Lemma hidden_file_ends_its_directory_unreadable_file_ends_the_walk_witness :
  walkChildren (collect cutWorld) "/"
    [Dir "a" [File "first"; File ".bad"; File "later"]; Dir "b" [File "good"]] []
  = ([recordOf "first" "/a" helloBytes; recordOf "good" "/b" helloBytes], Ret None) /\
  walkChildren (collect cutWorld) "/"
    [Dir "a" [File "first"; File "bad"; File "later"]; Dir "b" [File "good"]] []
  = ([recordOf "first" "/a" helloBytes], Ret (Some (ErrPath "open" "/a/bad"))).
Proof.
  split.
  - destruct (hidden_file_ends_its_directory_unreadable_file_ends_the_walk
                cutWorld "/" "a" [File "first"] ".bad" [File "later"]
                [Dir "b" [File "good"]] [] eq_refl eq_refl eq_refl) as [H _].
    etransitivity; [exact (H eq_refl)|]. vm_compute. reflexivity.
  - destruct (hidden_file_ends_its_directory_unreadable_file_ends_the_walk
                cutWorld "/" "a" [File "first"] "bad" [File "later"]
                [Dir "b" [File "good"]] [] eq_refl eq_refl eq_refl) as [_ H].
    etransitivity; [exact (H (ErrPath "open" "/a/bad") eq_refl eq_refl eq_refl)|].
    vm_compute. reflexivity.
Defined.

(** X17: a root directory in whose listing a file is hidden or cannot be
    read, on a store without faults.  [main] returns normally; of that root
    the table gains the rows of the files reached through the children
    listed before the file, and nothing of the file or of what is listed
    after it; the roots before and after it are stored as usual. *)
Theorem file_that_cuts_a_root w args1 dir args2 abs name before f after d :
  noFault d ->
  forallb (cleanRoot w) args1 = true ->
  forallb (cleanRoot w) args2 = true ->
  Abs w dir = Ok abs ->
  Lstat w abs = Ok (Dir name (before ++ File f :: after)) ->
  hidden name = false ->
  forallb noHiddenFile before = true ->
  forallb (readable w) (childEntries abs before) = true ->
  hidden f = true \/ readable w (Filepath.Join abs f, f) = false ->
  exists st,
    main w (args1 ++ dir :: args2) d = (st, Ret tt) /\
    Sql.table (db st)
    = Sql.table d
        ++ expectedRows w args1
        ++ map (fun e => insertArgs (recordAt w e)) (childEntries abs before)
        ++ expectedRows w args2.
Proof.
  intros Hnf Hc1 Hc2 Ha Hl Hh Hn Hr Hf.
  assert (Hw : exists e, walk (collect w) abs (Dir name (before ++ File f :: after))
                              (map (recordAt w) (flat_map (rootEntries w) args1))
                         = (map (recordAt w) (flat_map (rootEntries w) args1)
                              ++ map (recordAt w) (childEntries abs before),
                            Ret (Some e))).
  { destruct (hidden f) eqn:Hhf.
    - exists SkipDir. apply walk_cut; try assumption.
      intros acc'. now apply collect_hidden.
    - destruct Hf as [Hf|Hf]; [discriminate|]. unfold readable in Hf. cbn [fst] in Hf.
      destruct (ReadFile w (Filepath.Join abs f)) as [c|e] eqn:Hrf; [discriminate|].
      exists e. apply walk_cut; try assumption.
      intros acc'. now apply collect_unreadable. }
  destruct Hw as [e Hw].
  assert (Hrecs : collectRoots w (args1 ++ dir :: args2) []
                  = (map (recordAt w) (flat_map (rootEntries w) args1)
                       ++ map (recordAt w) (childEntries abs before)
                       ++ map (recordAt w) (flat_map (rootEntries w) args2), Ret tt)).
  { rewrite (collectRoots_app w args1 (dir :: args2) [] _ (collectRoots_clean w args1 Hc1 [])).
    cbn [app collectRoots]. rewrite Ha. unfold bind at 1. unfold Walk, bind at 1.
    rewrite Hl, Hw.
    assert (E : forall acc,
               collectRoots w args2 acc
               = (acc ++ map (recordAt w) (flat_map (rootEntries w) args2), Ret tt))
      by (intros acc; now apply collectRoots_clean).
    destruct (isSkipDir e || isSkipAll e); cbn [ret]; rewrite E, <- app_assoc; reflexivity. }
  destruct (main_noFault w (args1 ++ dir :: args2) d _
              ltac:(now destruct args1) Hnf Hrecs)
    as (batches & rest & st & Hm & _ & _ & _ & _ & _ & Ht).
  exists st. split; [exact Hm|].
  rewrite Ht. unfold expectedRows. now rewrite !map_app, !map_map.
Qed.

Lemma file_that_cuts_a_root_witness :
  exists st,
    main cutWorld ["/a"; "/b"] emptyDB = (st, Ret tt) /\
    Sql.table (db st)
    = [["first"; ""; helloDigest; "/a/first"]; ["good"; ""; helloDigest; "/b/good"]].
Proof.
  destruct (file_that_cuts_a_root cutWorld [] "/a" ["/b"] "/a" "a" [File "first"] "bad"
              [File "later"] emptyDB) as (st & Hm & Ht).
  - intro. reflexivity.
  - reflexivity.
  - reflexivity.
  - reflexivity.
  - reflexivity.
  - reflexivity.
  - reflexivity.
  - reflexivity.
  - right. reflexivity.
  - exists st. split; [exact Hm|]. rewrite Ht. vm_compute. reflexivity.
Defined.

(** ** A root at which nothing exists *)

(** The loop over the roots does not return when nothing exists at the
    path walked for one of them. *)
Lemma walkRoots_missing w dirs :
  existsb (rootMissing w) dirs = true ->
  forall st u, snd (walkRoots w dirs st) <> Ret u.
Proof.
  induction dirs as [|dir dirs IH]; [discriminate|].
  cbn [existsb]. intros H st u. cbn [walkRoots].
  assert (Hgo : forall st0,
             snd ((_ <- Walk w (visit w) (rootPath w dir) ;; walkRoots w dirs) st0)
             <> Ret u).
  { intros st0. unfold bind at 1. unfold rootMissing in H.
    destruct (Lstat w (rootPath w dir)) as [n|e] eqn:Hl.
    - cbn [orb] in H.
      destruct (Walk w (visit w) (rootPath w dir) st0) as [st1 [oe|e|]];
        [now apply IH|discriminate|discriminate].
    - unfold Walk, bind. rewrite Hl, visit_nil_info. discriminate. }
  unfold rootPath in Hgo. destruct (Abs w dir) as [abs|e]; apply Hgo.
Qed.

(** X18: on a store without faults, when nothing exists at the path walked
    for one of the roots (the root does not exist, or [filepath.Abs] failed
    and nothing exists at the empty path), [main] panics: [visit] gets a
    nil [info] with the error of [os.Lstat], and [doVisit] calls
    [info.Name()] without looking at the error. *)
Theorem missing_root_makes_the_run_panic w args d :
  noFault d ->
  existsb (rootMissing w) args = true ->
  snd (main w args d) = Panic.
Proof.
  intros Hnf Hm. destruct args as [|a args]; [discriminate|].
  pose proof (main_not_fatal w (a :: args) d) as Hfatal.
  rewrite main_unfold in * by exact Hnf. unfold bind at 1 in Hfatal. unfold bind at 1.
  pose proof (walkRoots_missing w (a :: args) Hm) as Hw.
  match goal with
  | |- context [walkRoots w (a :: args) ?s0] =>
      specialize (Hw s0); destruct (walkRoots w (a :: args) s0) as [st1 [[]|e|]]
  end; cbn [snd] in *.
  - now contradiction (Hw tt).
  - exfalso. exact (Hfatal _ e Hnf eq_refl).
  - reflexivity.
Qed.

Lemma missing_root_makes_the_run_panic_witness :
  snd (main missingRootWorld ["/data"; "/missing"] emptyDB) = Panic.
Proof.
  apply missing_root_makes_the_run_panic; [intro; reflexivity|reflexivity].
Defined.

(** ** The rows stored are rows of the records produced *)

Lemma storedRows_app rs1 rs2 oks1 oks2 :
  List.length oks1 = List.length rs1 ->
  storedRows (rs1 ++ rs2) (oks1 ++ oks2) = storedRows rs1 oks1 ++ storedRows rs2 oks2.
Proof.
  unfold storedRows. revert oks1. induction rs1 as [|r rs1 IH]; intros [|ok oks1] H;
    try discriminate; [reflexivity|].
  cbn [app combine filter snd]. injection H as H.
  destruct ok; cbn [map fst app]; now rewrite IH.
Qed.

Lemma storedRows_prefix rs rest oks :
  List.length oks = List.length rs ->
  storedRows (rs ++ rest) oks = storedRows rs oks.
Proof.
  intros H. rewrite <- (app_nil_r oks) at 1. rewrite storedRows_app by exact H.
  unfold storedRows at 2. rewrite combine_nil. apply app_nil_r.
Qed.

Lemma rowsInv_rowsEnd t0 acc st : rowsInv t0 acc st -> rowsEnd t0 acc st.
Proof. intros (flushed & oks & H). now exists flushed, oks, (records st). Qed.

Lemma rowsEnd_table t0 acc st :
  rowsEnd t0 acc st -> exists oks, Sql.table (db st) = t0 ++ storedRows acc oks.
Proof.
  intros (flushed & oks & rest & -> & Hl & Ht). exists oks.
  now rewrite storedRows_prefix.
Qed.

Lemma rowsEnd_extend t0 acc more st : rowsEnd t0 acc st -> rowsEnd t0 (acc ++ more) st.
Proof.
  intros (flushed & oks & rest & -> & Hl & Ht). exists flushed, oks, (rest ++ more).
  now rewrite app_assoc.
Qed.

(** A flush, for the rows: the batch becomes part of the flushed records,
    or the flush fails and the table is as before. *)
Lemma rowsInv_flush t0 acc st :
  rowsInv t0 acc st ->
  rowsEnd t0 acc (fst (commitRecords (records st) st)) /\
  (snd (commitRecords (records st) st) = None ->
   rowsInv t0 acc (setRecords [] (fst (commitRecords (records st) st)))).
Proof.
  intros (flushed & oks & Hacc & Hl & Ht).
  destruct (commitRecords_effect (records st) st) as (oks2 & Hl2 & Hrs & _ & _ & Htb).
  destruct (commitRecords (records st) st) as [st2 [e|]]; cbn [fst snd] in *.
  - rewrite app_nil_r in Htb. split; [|discriminate].
    exists flushed, oks, (records st). rewrite Htb. now repeat split.
  - assert (H : rowsInv t0 acc (setRecords [] st2)).
    { exists (flushed ++ records st), (oks ++ oks2).
      cbn [setRecords records db]. rewrite app_nil_r, !length_app, Hl, Hl2, Htb, Ht.
      split; [exact Hacc|]. split; [reflexivity|].
      now rewrite storedRows_app, app_assoc. }
    split; [exact (rowsInv_rowsEnd _ _ _ H)|intros _; exact H].
Qed.

Lemma simF_ret {S1 S2 A : Type} (R Q : S1 -> S2 -> Prop) (a : A) :
  simF R Q (ret a) (ret a).
Proof. intros s1 s2 H. now split. Qed.

Lemma simF_bind {S1 S2 A B : Type} (R Q : S1 -> S2 -> Prop)
  (m1 : M S1 A) (m2 : M S2 A) (k1 : A -> M S1 B) (k2 : A -> M S2 B) :
  simF R Q m1 m2 ->
  (forall a, simF R Q (k1 a) (k2 a)) ->
  (forall a s1 s2, Q s1 s2 -> Q (fst (k1 a s1)) s2) ->
  simF R Q (bind m1 k1) (bind m2 k2).
Proof.
  intros Hm Hk Hext s1 s2 H. unfold bind. specialize (Hm s1 s2 H).
  destruct (m2 s2) as [s2' [a2|e2|]]; cbn [fst snd] in Hm.
  - destruct Hm as [HR Ho]. destruct (m1 s1) as [s1' o1]. cbn [fst snd] in *. subst o1.
    now apply Hk.
  - destruct (m1 s1) as [s1' [a1|e1|]]; cbn [fst snd] in *; [now apply Hext|exact Hm|exact Hm].
  - destruct Hm as [HR Ho]. destruct (m1 s1) as [s1' o1]. cbn [fst snd] in *. subst o1.
    now split.
Qed.

Lemma keeps_fst {S A : Type} (P : S -> Prop) (m : M S A) :
  keeps P (fun _ => P) m -> forall s, P s -> P (fst (m s)).
Proof. intros Hm s H. specialize (Hm s H). now destruct (m s) as [s' [a|e|]]. Qed.

Lemma fst_keeps {S A : Type} (P : S -> Prop) (m : M S A) :
  (forall s, P s -> P (fst (m s))) -> keeps P (fun _ => P) m.
Proof. intros Hm s H. specialize (Hm s H). now destruct (m s) as [s' [a|e|]]. Qed.

Section WalkSimF.

Context {S1 S2 : Type} (R Q : S1 -> S2 -> Prop).
Variables (f : WalkFunc S1) (g : WalkFunc S2).
Hypothesis step : forall p i e, simF R Q (f p i e) (g p i e).
Hypothesis ext : forall p i e s1 s2, Q s1 s2 -> Q (fst (f p i e s1)) s2.

Lemma walk_ext n p s1 s2 : Q s1 s2 -> Q (fst (walk f p n s1)) s2.
Proof.
  apply (keeps_fst (fun s => Q s s2)). apply walk_keeps.
  intros p' i. apply fst_keeps. intros s. apply ext.
Qed.

Lemma walkChildren_ext path cs s1 s2 : Q s1 s2 -> Q (fst (walkChildren f path cs s1)) s2.
Proof.
  apply (keeps_fst (fun s => Q s s2)). apply walkChildren_keeps.
  apply Forall_forall. intros n _ p. apply fst_keeps. intros s. apply walk_ext.
Qed.

Lemma Walk_ext w root s1 s2 : Q s1 s2 -> Q (fst (Walk w f root s1)) s2.
Proof.
  apply (keeps_fst (fun s => Q s s2)). apply Walk_keeps.
  - intros p' i. apply fst_keeps. intros s. apply ext.
  - intros e _. apply fst_keeps. intros s. apply ext.
Qed.

Lemma walkChildren_simF path cs :
  Forall (fun n => forall p, simF R Q (walk f p n) (walk g p n)) cs ->
  simF R Q (walkChildren f path cs) (walkChildren g path cs).
Proof.
  induction 1 as [|c cs Hc _ IH].
  - apply simF_ret.
  - cbn [walkChildren]. apply simF_bind; [apply Hc| |].
    + intros [e|]; [|exact IH].
      destruct (negb (nodeIsDir c) || negb (isSkipDir e)); [apply simF_ret|exact IH].
    + intros [e|] s1 s2 HQ; [|now apply walkChildren_ext].
      destruct (negb (nodeIsDir c) || negb (isSkipDir e));
        [exact HQ|now apply walkChildren_ext].
Qed.

Lemma walk_simF n : forall path, simF R Q (walk f path n) (walk g path n).
Proof.
  induction n as [name|name cs IH] using node_induction; intros path.
  - rewrite !walk_File. apply step.
  - rewrite !walk_Dir. apply simF_bind; [apply step| |].
    + intros [e|]; [apply simF_ret|]. now apply walkChildren_simF.
    + intros [e|] s1 s2 HQ; [exact HQ|now apply walkChildren_ext].
Qed.

Lemma Walk_simF w root : simF R Q (Walk w f root) (Walk w g root).
Proof.
  unfold Walk. apply simF_bind.
  - destruct (Lstat w root); [apply walk_simF|apply step].
  - intros [e|]; [|apply simF_ret].
    destruct (isSkipDir e || isSkipAll e); apply simF_ret.
  - intros [e|] s1 s2 HQ; [|exact HQ].
    now destruct (isSkipDir e || isSkipAll e).
Qed.

End WalkSimF.

Lemma collect_ext w t0 p i e acc st :
  rowsEnd t0 acc st -> rowsEnd t0 (fst (collect w p i e acc)) st.
Proof.
  intros H. unfold collect.
  destruct (snd (doVisit w p i e)) as [[[r|] [suberr|]]|e'|]; cbn [fst]; try exact H.
  now apply rowsEnd_extend.
Qed.

Lemma collectRoots_ext w t0 dirs : forall acc st,
  rowsEnd t0 acc st -> rowsEnd t0 (fst (collectRoots w dirs acc)) st.
Proof.
  induction dirs as [|dir dirs IH]; intros acc st H; [exact H|].
  cbn [collectRoots]. unfold bind at 1.
  pose proof (Walk_ext (fun acc st => rowsEnd t0 acc st) (collect w)
                (fun p i e s1 s2 => collect_ext w t0 p i e s1 s2) w
                (match Abs w dir with Ok abs => abs | Err _ => EmptyString end) acc st H)
    as HW.
  destruct (Walk w (collect w) _ acc) as [acc1 [oe|e|]]; cbn [fst] in *;
    [now apply IH|exact HW|exact HW].
Qed.

(** [visit] and [collect] side by side, whatever the store does. *)
Lemma visit_simF w t0 p i e :
  simF (rowsInv t0) (rowsEnd t0) (collect w p i e) (visit w p i e).
Proof.
  intros acc st Hinv. unfold collect, visit.
  destruct (doVisit w p i e) as [lines o] eqn:Hd. cbn [snd].
  assert (Hflush : forall acc1 st1,
             rowsInv t0 acc1 st1 ->
             match
               snd (if Z.of_nat (List.length (records st1)) =? 100000
                    then let (st2, err) := commitRecords (records st1) st1 in
                         match err with
                         | Some e => logFatal e st2
                         | None => (setRecords [] st2, Ret None)
                         end
                    else (st1, Ret (@None error)))
             with
             | Fatal _ =>
                 rowsEnd t0 acc1
                   (fst (if Z.of_nat (List.length (records st1)) =? 100000
                         then let (st2, err) := commitRecords (records st1) st1 in
                              match err with
                              | Some e => logFatal e st2
                              | None => (setRecords [] st2, Ret None)
                              end
                         else (st1, Ret (@None error))))
             | o2 =>
                 rowsInv t0 acc1
                   (fst (if Z.of_nat (List.length (records st1)) =? 100000
                         then let (st2, err) := commitRecords (records st1) st1 in
                              match err with
                              | Some e => logFatal e st2
                              | None => (setRecords [] st2, Ret None)
                              end
                         else (st1, Ret (@None error)))) /\
                 Ret (@None error) = o2
             end).
  { intros acc1 st1 H1.
    destruct (Z.of_nat (List.length (records st1)) =? 100000); [|now split].
    destruct (rowsInv_flush t0 acc1 st1 H1) as [He Hn].
    destruct (commitRecords (records st1) st1) as [st2 [e'|]]; cbn [fst snd] in *.
    - exact He.
    - split; [now apply Hn|reflexivity]. }
  destruct o as [[[r|] [suberr|]]|e'|]; cbn [fst snd].
  - now split.
  - apply Hflush. destruct Hinv as (flushed & oks & -> & Hl & Ht).
    exists flushed, oks. cbn [setRecords logAll records db].
    split; [now rewrite app_assoc|]. now split.
  - now split.
  - apply Hflush. exact Hinv.
  - exfalso. exact (doVisit_not_fatal _ _ _ _ _ _ Hd).
  - now split.
Qed.

Lemma walkRoots_simF w t0 dirs :
  simF (rowsInv t0) (rowsEnd t0) (collectRoots w dirs) (walkRoots w dirs).
Proof.
  induction dirs as [|dir dirs IH]; [apply simF_ret|].
  intros acc st Hinv. cbn [collectRoots walkRoots].
  assert (HW : forall root,
             simF (rowsInv t0) (rowsEnd t0) (_ <- Walk w (collect w) root ;; collectRoots w dirs)
                  (_ <- Walk w (visit w) root ;; walkRoots w dirs)).
  { intros root. apply simF_bind.
    - apply Walk_simF; [intros; apply visit_simF|intros; now apply collect_ext].
    - intros _. exact IH.
    - intros _ s1 s2. apply collectRoots_ext. }
  destruct (Abs w dir) as [abs|err]; [now apply HW|].
  apply (HW EmptyString acc (logPrintf (LogErrorDir dir) st)). exact Hinv.
Qed.

(** X19: whatever the file system holds and whatever the store does, the
    rows the table gains in a run are rows of records that the walks
    produce, in the order in which they are produced and each at most once:
    a failure leaves rows out, it never adds, repeats or reorders one. *)
Theorem stored_rows_are_rows_of_the_records_produced w args d :
  exists oks,
    Sql.table (db (fst (main w args d)))
    = Sql.table d ++ storedRows (fst (collectRoots w args [])) oks.
Proof.
  assert (Hnone : forall rs, Sql.table d = Sql.table d ++ storedRows rs []).
  { intros rs. unfold storedRows. rewrite combine_nil. cbn. now rewrite app_nil_r. }
  destruct args as [|a args]; [exists []; apply Hnone|].
  unfold main, Sql.call. cbn [setDb records db log Sql.ops Sql.table Sql.fault Sql.pending].
  destruct (negb (Sql.fault d (List.length (Sql.ops d)))); cbn [negb];
    [|exists []; apply Hnone].
  match goal with |- context [if negb (negb ?b) then _ else _] => destruct b end;
    cbn [negb]; [exists []; apply Hnone|].
  apply rowsEnd_table.
  match goal with
  | |- context [(_ <- walkRoots w (a :: args) ;; commitRemaining) ?s0] =>
      assert (H0 : rowsInv (Sql.table d) [] s0)
        by (exists [], []; cbn; now rewrite app_nil_r);
      pose proof (walkRoots_simF w (Sql.table d) (a :: args) [] s0 H0) as Hs;
      unfold bind at 1;
      destruct (walkRoots w (a :: args) s0) as [st1 o1]
  end.
  cbn [fst snd] in Hs. destruct o1 as [[]|e|].
  - destruct Hs as [Hs _]. unfold commitRemaining.
    destruct (0 <? Z.of_nat (List.length (records st1))).
    + destruct (rowsInv_flush _ _ _ Hs) as [He _].
      destruct (commitRecords (records st1) st1) as [st2 [e|]]; exact He.
    + now apply rowsInv_rowsEnd.
  - exact Hs.
  - destruct Hs as [Hs _]. now apply rowsInv_rowsEnd.
Qed.
